(** * Verification of the xref-tag traversal helpers

    Shallow embedding of two helper classes of the build-tool plugins:
    - [TreeWalker] (src/TreeWalker.py): depth-first walk of a rooted,
      possibly cyclic graph, with a history of already returned nodes;
    - [generated_list] (src/generated_list.py): a list subclass that
      defers calling its generator until an operation needs the elements. *)

From Stdlib Require Import List Arith Lia Permutation ZArith Bool.
Import ListNotations.

(** ** TreeWalker *)

Module TreeWalker.

Section Walk.

(** The child-enumeration function [get_children] passed to the
    constructor.  It is a Rocq function, so it is deterministic and has
    no side effect.  Nodes are compared with [==] (here [Nat.eqb]). *)
Variable get_children : nat -> list nat.

(** The attributes of a [TreeWalker] object.  [get_children] is the
    section variable; [cycle_func] is modelled by the log of its calls
    returned by [next_child].  Python stacks grow at the end
    ([self.node_stack[-1]] is the top); here the top is the head. *)
Record walker := mk_walker {
  root_node    : option nat;        (* [None] is a falsy root *)
  node_stack   : list (list nat);
  parent_stack : list nat;
  history      : list nat
}.

(** [node in self.history] *)
Definition mem (n : nat) (l : list nat) : bool := existsb (Nat.eqb n) l.

(** [TreeWalker.reset] *)
Definition reset (w : walker) : walker :=
  let children := match root_node w with
                  | Some r => get_children r
                  | None => []
                  end in
  match root_node w, children with
  | Some r, _ :: _ => mk_walker (root_node w) [children] [r] []
  | _, _ => mk_walker (root_node w) [] [] []
  end.

(** [TreeWalker.__init__]: store the root, then call [reset]. *)
Definition init (node : option nat) : walker :=
  reset (mk_walker node [] [] []).

(** [TreeWalker.is_done] *)
Definition is_done (w : walker) : bool :=
  match node_stack w with [] => true | _ => false end.

(** [TreeWalker.__nonzero__] *)
Definition walker_nonzero (w : walker) : bool :=
  match node_stack w with [] => false | _ => true end.

(** One pass through the body of [next_child]: pop the first node of
    the top sibling group (dropping the group and its parent when it
    becomes empty), then either return it (first visit) or report it to
    [cycle_func] (repeat).  [Fail] is the [IndexError] of [pop(0)] on an
    empty group or of [parent_stack[-1]] on an empty parent stack. *)
Inductive outcome :=
| Done
| Fail
| Yielded (node parent : nat) (w : walker)
| Repeated (node parent : nat) (w : walker).

Definition step (w : walker) : outcome :=
  match node_stack w, parent_stack w with
  | [], _ => Done
  | _ :: _, [] => Fail
  | [] :: _, _ :: _ => Fail
  | (node :: rest) :: groups, parent :: parents =>
      let '(groups', parents') :=
        match rest with
        | [] => (groups, parents)
        | _ :: _ => (rest :: groups, parent :: parents)
        end in
      if mem node (history w) then
        Repeated node parent (mk_walker (root_node w) groups' parents' (history w))
      else
        let h := history w ++ [node] in
        match get_children node with
        | [] => Yielded node parent (mk_walker (root_node w) groups' parents' h)
        | children =>
            Yielded node parent
              (mk_walker (root_node w) (children :: groups') (node :: parents') h)
        end
  end.

(** [next_child]: the recursive call after a repeat is unfolded with a
    fuel argument; [next_child] gives it one unit more than the number
    of queued nodes, and each recursive call pops one of them.  The
    result is [None] on an exception, otherwise the returned pair
    ([None] for [(None, None)]), the new state and the [cycle_func]
    calls made, in order. *)
Fixpoint next_child_fuel (fuel : nat) (w : walker)
  : option (option (nat * nat) * walker * list (nat * nat)) :=
  match fuel with
  | 0 => None
  | S f =>
      match step w with
      | Done => Some (None, w, [])
      | Fail => None
      | Yielded v p w' => Some (Some (v, p), w', [])
      | Repeated v p w' =>
          match next_child_fuel f w' with
          | Some (r, w'', cs) => Some (r, w'', (v, p) :: cs)
          | None => None
          end
      end
  end.

Definition next_child (w : walker) :=
  next_child_fuel (S (length (concat (node_stack w)))) w.

(** A caller exhausting the walker: call [next_child] until it returns
    [(None, None)], collecting the returned pairs and the [cycle_func]
    calls; [fuel] bounds the number of calls. *)
Fixpoint exhaust (fuel : nat) (w : walker)
  : option (list (nat * nat) * list (nat * nat) * walker) :=
  match fuel with
  | 0 => None
  | S f =>
      match next_child w with
      | None => None
      | Some (None, w', cs) => Some ([], cs, w')
      | Some (Some y, w', cs) =>
          match exhaust f w' with
          | Some (ys, cs', w'') => Some (y :: ys, cs ++ cs', w'')
          | None => None
          end
      end
  end.

(** A caller making [k] calls of [next_child] in a row (whatever they
    return); [None] when one of them raises. *)
Fixpoint next_child_n (k : nat) (w : walker) : option walker :=
  match k with
  | 0 => Some w
  | S k' =>
      match next_child w with
      | Some (_, w', _) => next_child_n k' w'
      | None => None
      end
  end.

(** Nodes reachable from the root [r] by at least one edge. *)
Inductive reach (r : nat) : nat -> Prop :=
| reach_child : forall c, In c (get_children r) -> reach r c
| reach_step : forall u c, reach r u -> In c (get_children u) -> reach r c.

(** Number of edges into [v] from the nodes of [srcs] (with their
    multiplicity in [srcs] and in the child lists). *)
Definition indegree (srcs : list nat) (v : nat) : nat :=
  count_occ Nat.eq_dec (flat_map get_children srcs) v.

(** The queued (node, parent) pairs of the frontier, top group first,
    each group in its left-to-right order. *)
Fixpoint pending (groups : list (list nat)) (parents : list nat) : list (nat * nat) :=
  match groups, parents with
  | g :: gs, p :: ps => map (fun c => (c, p)) g ++ pending gs ps
  | _, _ => []
  end.

Definition frontier (w : walker) := pending (node_stack w) (parent_stack w).

(** The pairs pushed when [p]'s children are enumerated. *)
Definition edges (p : nat) : list (nat * nat) := map (fun c => (c, p)) (get_children p).

(** Both stacks have the same height and no sibling group is empty. *)
Definition stacks_ok (gs : list (list nat)) (ps : list nat) : Prop :=
  length gs = length ps /\ Forall (fun g => g <> []) gs.

Definition inv (w : walker) := stacks_ok (node_stack w) (parent_stack w).

(** The state after a first visit of [v]: its children, if any, are
    pushed as a new top group with [v] as their parent. *)
Definition after_visit (ro : option nat) (v : nat) (gs : list (list nat))
  (ps : list nat) (h : list nat) : walker :=
  match get_children v with
  | [] => mk_walker ro gs ps h
  | children => mk_walker ro (children :: gs) (v :: ps) h
  end.

(** Nodes of [U] not yet in the history. *)
Definition unvisited (U : list nat) (w : walker) : nat :=
  length (filter (fun u => negb (mem u (history w))) U).

(** [U] lists every node of a finite graph: it is closed under edges. *)
Definition closed (U : list nat) : Prop :=
  forall u c, In u U -> In c (get_children u) -> In c U.

End Walk.

Definition pair_eq_dec : forall a b : nat * nat, {a = b} + {a <> b}.
Proof. decide equality; apply Nat.eq_dec. Defined.
Arguments pair_eq_dec : simpl never.

Definition diamond (n : nat) : list nat :=
  match n with 0 => [1; 2] | 1 => [3] | 2 => [3] | _ => [] end.

(** Root 0 lies on a cycle: 0 -> 1, 0 -> 2, 2 -> 1, 2 -> 0. *)
Definition root_on_cycle (n : nat) : list nat :=
  match n with 0 => [1; 2] | 2 => [1; 0] | _ => [] end.

(** Root 0 has a self-loop and is also reached back through 1. *)
Definition root_self_loop (n : nat) : list nat :=
  match n with 0 => [1; 0] | 1 => [0] | _ => [] end.

End TreeWalker.

(** ** generated_list *)

Module GeneratedList.

Open Scope Z_scope.

(** A [generated_list].  [gen_fn] stands for calling [self.gen_fn] on [self.gen_args]:
    [Some xs] is a deterministic, finite producer that yields [xs] each
    time it is called, [None] a producer already forgotten.  [storage] is
    the built-in list the class extends; [nonzero] is [self.nonzero]. *)
Record gl := mk_gl {
  gen_fn  : option (list Z);
  storage : list Z;
  nonzero : option bool
}.

(** [generated_list.__init__] *)
Definition new_gl (xs : list Z) : gl := mk_gl (Some xs) [] None.

Inductive exc := IndexError | ValueError | NameError | AttributeError | TypeError.

Inductive result (A : Type) := Ok (a : A) | Raise (e : exc).
Arguments Ok {A} a.
Arguments Raise {A} e.

(** Every operation returns its result, the object afterwards and the
    number of elements drawn from the producer (the side effects of the
    producer, e.g. the "Generating value" lines of
    [test_get_generated_list], happen once per drawn element). *)

(** [Expand] *)
Definition Expand (g : gl) : gl * nat :=
  match gen_fn g with
  | Some xs => (mk_gl None (storage g ++ xs) (nonzero g), length xs)
  | None => (g, 0%nat)
  end.

(** The loop of [index] on the producer output ([-1] when it runs out
    or stops at [max_index]). *)
Fixpoint index_loop (val min_index : Z) (max_index : option Z) (idx : Z) (xs : list Z)
  : Z * nat :=
  match xs with
  | [] => (-1, 0%nat)
  | x :: rest =>
      let next := let '(r, n) := index_loop val min_index max_index (idx + 1) rest in (r, S n) in
      if idx <? min_index then next
      else if match max_index with Some m => m <? idx | None => false end then (-1, 1%nat)
      else if val =? x then (idx, 1%nat)
      else next
  end.

(** Python 2 [list.index(val)]: the first position, or [ValueError]. *)
Fixpoint list_index (val : Z) (l : list Z) : result Z :=
  match l with
  | [] => Raise ValueError
  | x :: rest => if val =? x then Ok 0 else
                 match list_index val rest with Ok i => Ok (i + 1) | Raise e => Raise e end
  end.

(** [index]; in Python 2 [max_index >= None] holds for any integer. *)
Definition index (g : gl) (val : Z) (min_index max_index : option Z) : result Z * gl * nat :=
  match gen_fn g with
  | Some xs =>
      if match min_index with None => true | Some m => 0 <=? m end &&
         match max_index, min_index with
         | None, _ => true
         | Some _, None => true
         | Some mx, Some mi => mi <=? mx
         end
      then let '(r, n) := index_loop val (match min_index with Some m => m | None => 0 end)
                            max_index 0 xs in (Ok r, g, n)
      else (list_index val (storage g), g, 0%nat)
  | None => (list_index val (storage g), g, 0%nat)
  end.

(** [count] *)
Definition count (g : gl) (val : Z) : result nat * gl * nat :=
  match gen_fn g with
  | Some xs => (Ok (count_occ Z.eq_dec xs val), g, length xs)
  | None => (Ok (count_occ Z.eq_dec (storage g) val), g, 0%nat)
  end.

(** [__len__] *)
Definition len (g : gl) : result nat * gl * nat :=
  match gen_fn g with
  | Some xs => (Ok (length xs), g, length xs)
  | None => (Ok (length (storage g)), g, 0%nat)
  end.

(** [__contains__]: the Python value returned, [None] when the method
    falls off its end (the materialized branch has no [return]). *)
Definition contains (g : gl) (val : Z) : result (option bool) * gl * nat :=
  match gen_fn g with
  | Some _ =>
      match index g val None None with
      | (Ok i, g', n) => (Ok (Some (0 <=? i)), g', n)
      | (Raise e, g', n) => (Raise e, g', n)
      end
  | None => (Ok None, g, 0%nat)
  end.

(** The [in] operator: the truth value of what [__contains__] returns. *)
Definition py_in (g : gl) (val : Z) : result bool * gl * nat :=
  match contains g val with
  | (Ok (Some b), g', n) => (Ok b, g', n)
  | (Ok None, g', n) => (Ok false, g', n)
  | (Raise e, g', n) => (Raise e, g', n)
  end.

(** [__iter__], run to the end: the values the iterator yields. *)
Definition iter (g : gl) : list Z * nat :=
  match gen_fn g with
  | Some xs => (xs, length xs)
  | None => (storage g, 0%nat)
  end.

(** [pop]: [super(generated_list.self)] looks up the attribute [self]
    of the class [generated_list], which does not exist. *)
Definition pop (g : gl) (pos : option Z) : result Z * gl * nat :=
  let '(g', n) := Expand g in (Raise AttributeError, g', n).

(** *** Element access and slices *)

Inductive index_arg := Int (i : Z) | Slice (start stop step : option Z).
Inductive item := Elem (z : Z) | Items (l : list Z).

Fixpoint slice_collect (l : list Z) (i stop step : Z) (fuel : nat) : list Z :=
  match fuel with
  | O => []
  | S f =>
      if (if 0 <? step then i <? stop else stop <? i)
      then nth (Z.to_nat i) l 0 :: slice_collect l (i + step) stop step f
      else []
  end.

(** Built-in [list.__getitem__] with a slice object (the clamping of
    [PySlice_GetIndicesEx]). *)
Definition list_slice (l : list Z) (start stop step : option Z) : result (list Z) :=
  let n := Z.of_nat (length l) in
  match step with
  | Some 0 => Raise ValueError
  | _ =>
      let st := match step with Some k => k | None => 1 end in
      let lower := if st <? 0 then -1 else 0 in
      let upper := if st <? 0 then n - 1 else n in
      let adj v := let v := if v <? 0 then v + n else v in
                   if v <? lower then lower else if upper <? v then upper else v in
      let b := match start with None => if st <? 0 then upper else lower | Some v => adj v end in
      let e := match stop with None => if st <? 0 then lower else upper | Some v => adj v end in
      Ok (slice_collect l b e st (S (length l)))
  end.

(** Built-in [list.__getitem__]. *)
Definition list_getitem (l : list Z) (pos : index_arg) : result item :=
  match pos with
  | Int i =>
      let n := Z.of_nat (length l) in
      if (- n <=? i) && (i <? n)
      then Ok (Elem (nth (Z.to_nat (if i <? 0 then i + n else i)) l 0))
      else Raise IndexError
  | Slice start stop step =>
      match list_slice l start stop step with
      | Ok r => Ok (Items r)
      | Raise e => Raise e
      end
  end.

(** The loop of the lazy branch of [__getitem__]; in Python 2
    [idx > None] holds for any integer. *)
Fixpoint getitem_loop (start : Z) (stop : option Z) (step idx : Z) (xs : list Z)
  : list Z * nat :=
  match xs with
  | [] => ([], 0%nat)
  | x :: rest =>
      if idx <? start then
        let '(r, n) := getitem_loop start stop step (idx + 1) rest in (r, S n)
      else if match stop with Some e => e <? idx | None => true end then ([], 1%nat)
      else
        let '(r, n) := getitem_loop start stop step (idx + 1) rest in
        (if (idx - start) mod step =? 0 then x :: r else r, S n)
  end.

(** [__getitem__]: lazy for a slice with [start >= 0] (or none) and
    [stop >= start] (or none; [stop >= None] holds in Python 2);
    everything else calls [Expand] and the built-in [__getitem__]. *)
Definition getitem (g : gl) (pos : index_arg) : result item * gl * nat :=
  let fallback := let '(g', n) := Expand g in (list_getitem (storage g') pos, g', n) in
  match gen_fn g, pos with
  | Some xs, Slice start stop step =>
      if match start with None => true | Some b => 0 <=? b end &&
         match stop, start with
         | None, _ => true
         | Some _, None => true
         | Some e, Some b => b <=? e
         end
      then
        let b := match start with Some b => b | None => 0 end in
        let st := match step with
                  | None => 1
                  | Some k => if k =? 0 then 1 else if k <? 0 then - k else k
                  end in
        let '(r, n) := getitem_loop b stop st 0 xs in (Ok (Items r), g, n)
      else fallback
  | _, _ => fallback
  end.

(** Built-in Python 2 [list.__getslice__(i, j)]: bounds clamped to the list. *)
Definition list_getslice (l : list Z) (i j : Z) : list Z :=
  let n := Z.of_nat (length l) in
  let lo := Z.min (Z.max i 0) n in
  let hi := Z.min (Z.max j lo) n in
  firstn (Z.to_nat (hi - lo)) (skipn (Z.to_nat lo) l).

(** The loop of the lazy branch of [__getslice__]: the slice, the final
    value of [idx] and the number of drawn elements. *)
Fixpoint getslice_loop (start_pos end_pos idx : Z) (xs : list Z) : list Z * Z * nat :=
  match xs with
  | [] => ([], idx, 0%nat)
  | x :: rest =>
      if idx <? start_pos then
        let '(r, i, n) := getslice_loop start_pos end_pos (idx + 1) rest in (r, i, S n)
      else if end_pos <? idx then ([], idx, 1%nat)
      else
        let '(r, i, n) := getslice_loop start_pos end_pos (idx + 1) rest in (x :: r, i, S n)
  end.

(** [__getslice__], which Python 2 calls for [seq[i:j]] with integer
    bounds (a missing bound is passed as [0] or [sys.maxsize]). *)
Definition getslice (g : gl) (start_pos end_pos : Z) : result (list Z) * gl * nat :=
  match gen_fn g with
  | Some xs =>
      if (0 <=? start_pos) && (0 <=? end_pos) then
        let '(r, idx, n) := getslice_loop start_pos end_pos 0 xs in
        if idx <=? end_pos then (Raise IndexError, g, n) else (Ok r, g, n)
      else let '(g', n) := Expand g in (Ok (list_getslice (storage g') start_pos end_pos), g', n)
  | None => (Ok (list_getslice (storage g) start_pos end_pos), g, 0%nat)
  end.

(** *** Comparisons *)

(** The other operand: an iterable sequence, or an object without
    [__iter__] (a number). *)
Inductive operand := Seq (ys : list Z) | Scalar (z : Z).

(** Python 2 ordering of two lists (lexicographic), and of a list with a
    number (a number is smaller than any list). *)
Fixpoint list_compare (xs ys : list Z) : comparison :=
  match xs, ys with
  | [], [] => Eq
  | [], _ :: _ => Lt
  | _ :: _, [] => Gt
  | x :: xs', y :: ys' =>
      match Z.compare x y with Eq => list_compare xs' ys' | c => c end
  end.

Definition operand_compare (l : list Z) (o : operand) : comparison :=
  match o with Seq ys => list_compare l ys | Scalar _ => Gt end.

Definition py_lt (l : list Z) (o : operand) : bool :=
  match operand_compare l o with Lt => true | _ => false end.
Definition py_gt (l : list Z) (o : operand) : bool :=
  match operand_compare l o with Gt => true | _ => false end.
Definition py_eq (l : list Z) (o : operand) : bool :=
  match operand_compare l o with Eq => true | _ => false end.

(** The loop of [_sequence_comparation] over the producer output and
    the other iterator; [truthy] is Python truth of a [cmp_fn] result. *)
Fixpoint comparation_loop {V : Type} (truthy : V -> bool) (cmp_fn : Z -> Z -> V)
  (xs ys : list Z) : V :=
  match xs with
  | [] => match ys with [] => cmp_fn 0 0 | _ :: _ => cmp_fn 0 1 end
  | x :: xs' =>
      match ys with
      | [] => cmp_fn 1 0
      | y :: ys' =>
          let r := cmp_fn x y in
          if truthy r then r else comparation_loop truthy cmp_fn xs' ys'
      end
  end.

(** [_sequence_comparation].  [cmp_obj] is [cmp_fn] applied to whole
    objects.  An operand without [__iter__] reaches the bare call
    [Expand()], a [NameError] (no global [Expand] exists). *)
Definition sequence_comparation {V : Type} (truthy : V -> bool) (cmp_fn : Z -> Z -> V)
  (cmp_obj : list Z -> operand -> V) (g : gl) (other : operand) : result V :=
  match gen_fn g with
  | Some xs =>
      match other with
      | Scalar _ => Raise NameError
      | Seq ys => Ok (comparation_loop truthy cmp_fn xs ys)
      end
  | None => Ok (cmp_obj (storage g) other)
  end.

Definition cmp3 (l r : Z) : Z := if l <? r then -1 else if r <? l then 1 else 0.

Definition cmp3_obj (l : list Z) (o : operand) : Z :=
  if py_lt l o then -1 else if py_gt l o then 1 else 0.

(** [__cmp__]; once materialized, [super(self, ...)] is called with an
    instance as first argument, a [TypeError]. *)
Definition cmp (g : gl) (other : operand) : result Z :=
  match gen_fn g with
  | Some _ => sequence_comparation (fun z => negb (z =? 0)) cmp3 cmp3_obj g other
  | None => Raise TypeError
  end.

(** [__lt__] *)
Definition lt (g : gl) (other : operand) : result bool :=
  match gen_fn g with
  | Some _ => sequence_comparation (fun b => b) Z.ltb py_lt g other
  | None => Ok (py_lt (storage g) other)
  end.

(** [__eq__] *)
Definition eq (g : gl) (other : operand) : result bool :=
  match gen_fn g with
  | Some _ =>
      match sequence_comparation (fun b => b) (fun l r => negb (l =? r))
              (fun l o => negb (py_eq l o)) g other with
      | Ok b => Ok (negb b)
      | Raise e => Raise e
      end
  | None => Ok (py_eq (storage g) other)
  end.

(** [__le__] and [__ge__]: through [__cmp__] while deferred, the
    built-in Python 2 list order afterwards. *)
Definition le (g : gl) (other : operand) : result bool :=
  match gen_fn g with
  | Some _ => match cmp g other with Ok z => Ok (z <=? 0) | Raise e => Raise e end
  | None => Ok (negb (py_gt (storage g) other))
  end.

Definition ge (g : gl) (other : operand) : result bool :=
  match gen_fn g with
  | Some _ => match cmp g other with Ok z => Ok (0 <=? z) | Raise e => Raise e end
  | None => Ok (negb (py_lt (storage g) other))
  end.

(** [__ne__] *)
Definition ne (g : gl) (other : operand) : result bool :=
  match gen_fn g with
  | Some _ => sequence_comparation (fun b => b) (fun l r => negb (l =? r))
                (fun l o => negb (py_eq l o)) g other
  | None => Ok (negb (py_eq (storage g) other))
  end.

(** [__nonzero__]: while deferred, the first call draws at most one
    element and caches the answer in [self.nonzero]; once materialized,
    Python 2 [list] has no [__nonzero__], so [__len__] decides. *)
Definition gl_nonzero (g : gl) : bool * gl * nat :=
  match gen_fn g with
  | Some xs =>
      match nonzero g with
      | None =>
          let '(nz, n) := match xs with [] => (false, 0%nat) | _ :: _ => (true, 1%nat) end in
          (nz, mk_gl (gen_fn g) (storage g) (Some nz), n)
      | Some b => (b, g, 0%nat)
      end
  | None => (negb (Nat.eqb (length (storage g)) 0), g, 0%nat)
  end.

(** Built-in [list.insert]: a negative position counts from the end,
    then the position is clamped to the list. *)
Definition list_insert (l : list Z) (pos v : Z) : list Z :=
  let n := Z.of_nat (length l) in
  let p := if pos <? 0 then Z.max 0 (pos + n) else Z.min pos n in
  firstn (Z.to_nat p) l ++ v :: skipn (Z.to_nat p) l.

(** Built-in [list.remove]: drop the first element equal to the value;
    [None] is the [ValueError] of an absent value. *)
Fixpoint list_remove (v : Z) (l : list Z) : option (list Z) :=
  match l with
  | [] => None
  | x :: rest =>
      if v =? x then Some rest
      else match list_remove v rest with Some r => Some (x :: r) | None => None end
  end.

(** [append], [extend], [insert], [remove]: [Expand], then the
    built-in method on the storage. *)
Definition append (g : gl) (v : Z) : result unit * gl * nat :=
  let '(g', n) := Expand g in (Ok tt, mk_gl (gen_fn g') (storage g' ++ [v]) (nonzero g'), n).

Definition extend (g : gl) (ys : list Z) : result unit * gl * nat :=
  let '(g', n) := Expand g in (Ok tt, mk_gl (gen_fn g') (storage g' ++ ys) (nonzero g'), n).

Definition insert (g : gl) (pos v : Z) : result unit * gl * nat :=
  let '(g', n) := Expand g in
  (Ok tt, mk_gl (gen_fn g') (list_insert (storage g') pos v) (nonzero g'), n).

Definition remove (g : gl) (v : Z) : result unit * gl * nat :=
  let '(g', n) := Expand g in
  match list_remove v (storage g') with
  | Some s => (Ok tt, mk_gl (gen_fn g') s (nonzero g'), n)
  | None => (Raise ValueError, g', n)
  end.

End GeneratedList.

(** ** Facts about the walker *)

Module WalkerFacts.
Import TreeWalker.

Example diamond_run :
  exhaust diamond 10 (init diamond (Some 0))
  = Some ([(1, 0); (3, 1); (2, 0)], [(3, 2)], mk_walker (Some 0) [] [] [1; 3; 2]).
Proof. reflexivity. Qed.

Section Invariants.
Variable get_children : nat -> list nat.

Local Abbreviation step := (step get_children).
Local Abbreviation next_child_fuel := (next_child_fuel get_children).
Local Abbreviation next_child := (next_child get_children).
Local Abbreviation exhaust := (exhaust get_children).
Local Abbreviation edges := (edges get_children).
Local Abbreviation init := (init get_children).
Local Abbreviation reach := (reach get_children).
Local Abbreviation after_visit := (after_visit get_children).
Local Abbreviation closed := (closed get_children).

Lemma mem_In n l : mem n l = true <-> In n l.
Proof.
  unfold mem. rewrite existsb_exists. split.
  - intros [x [Hx Heq]]. apply Nat.eqb_eq in Heq. subst. exact Hx.
  - intros H. exists n. split; [exact H | apply Nat.eqb_refl].
Qed.

Lemma mem_false n l : mem n l = false <-> ~ In n l.
Proof.
  rewrite <- mem_In. destruct (mem n l); split; congruence.
Qed.

Lemma after_visit_spec ro v gs ps h :
  stacks_ok gs ps ->
  let w := after_visit ro v gs ps h in
  inv w /\ root_node w = ro /\ history w = h /\
  frontier w = edges v ++ pending gs ps /\
  incl (parent_stack w) (v :: ps) /\
  length (concat (node_stack w)) = length (get_children v) + length (concat gs).
Proof.
  unfold stacks_ok. intros [Hl Hne]. unfold after_visit, TreeWalker.edges, inv, stacks_ok.
  destruct (get_children v) as [|c cs] eqn:E; simpl.
  - repeat split; auto. intros x Hx. right. exact Hx.
  - repeat split; simpl; auto.
    + constructor; [discriminate | exact Hne].
    + apply incl_refl.
    + rewrite length_app. reflexivity.
Qed.

Lemma step_cases w :
  inv w ->
  (node_stack w = [] /\ step w = Done) \/
  exists v p gs ps,
    frontier w = (v, p) :: pending gs ps /\ stacks_ok gs ps /\
    incl ps (parent_stack w) /\ In p (parent_stack w) /\
    S (length (concat gs)) = length (concat (node_stack w)) /\
    ((mem v (history w) = true /\
      step w = Repeated v p (mk_walker (root_node w) gs ps (history w))) \/
     (mem v (history w) = false /\
      step w = Yielded v p (after_visit (root_node w) v gs ps (history w ++ [v])))).
Proof.
  destruct w as [ro ns ps h]. unfold inv, stacks_ok; simpl. intros [Hl Hne].
  destruct ns as [|g gs]; [left; split; reflexivity|right].
  destruct ps as [|p ps]; [discriminate|].
  destruct g as [|v rest]; [inversion Hne; congruence|].
  inversion Hne as [|? ? _ Hne']; subst. simpl in Hl. injection Hl as Hl.
  destruct rest as [|x rest].
  - exists v, p, gs, ps. unfold frontier; simpl. repeat split; auto.
    + intros y Hy. right. exact Hy.
    + unfold TreeWalker.step, TreeWalker.after_visit; simpl.
      destruct (mem v h); [left|right]; split; auto; destruct (get_children v); reflexivity.
  - exists v, p, ((x :: rest) :: gs), (p :: ps). unfold frontier; simpl.
    repeat split; simpl; auto.
    + constructor; [discriminate | exact Hne'].
    + apply incl_refl.
    + unfold TreeWalker.step, TreeWalker.after_visit; simpl.
      destruct (mem v h); [left|right]; split; auto; destruct (get_children v); reflexivity.
Qed.

Lemma next_child_fuel_spec f w :
  inv w -> length (concat (node_stack w)) < f ->
  exists r w' cs,
    next_child_fuel f w = Some (r, w', cs) /\
    root_node w' = root_node w /\ inv w' /\
    Forall (fun c => In (fst c) (history w)) cs /\
    match r with
    | None => frontier w = cs /\ node_stack w' = [] /\ history w' = history w
    | Some (v, p) =>
        exists rest,
          frontier w = cs ++ (v, p) :: rest /\
          frontier w' = edges v ++ rest /\
          ~ In v (history w) /\ history w' = history w ++ [v] /\
          In p (parent_stack w) /\ incl (parent_stack w') (v :: parent_stack w)
    end.
Proof.
  revert w. induction f as [|f IH]; intros w Hinv Hlt; [lia|].
  destruct (step_cases w Hinv) as [[Hns Hst] | (v & p & gs & ps & Hfr & Hok & Hincl & Hp & Hlen & Hcase)].
  - exists None, w, []. simpl. rewrite Hst.
    split; [reflexivity|]. split; [reflexivity|]. split; [exact Hinv|].
    split; [constructor|]. unfold frontier. rewrite Hns. auto.
  - destruct Hcase as [[Hmem Hst] | [Hmem Hst]].
    + destruct (IH (mk_walker (root_node w) gs ps (history w))) as (r & w' & cs & Hnc & Hro & Hinv' & Hcs & Hr);
        [exact Hok | simpl; lia |].
      exists r, w', ((v, p) :: cs). simpl. rewrite Hst, Hnc.
      split; [reflexivity|]. simpl in Hro, Hcs. split; [exact Hro|]. split; [exact Hinv'|].
      split; [constructor; [apply mem_In; exact Hmem | exact Hcs]|].
      destruct r as [[v' p']|]; simpl in Hr.
      * destruct Hr as (rest & Hfr' & Hfw' & Hnin & Hh & Hp' & Hi).
        exists rest. rewrite Hfr. unfold frontier in Hfr'. simpl in Hfr'. rewrite Hfr'.
        repeat split; auto.
        intros x Hx. destruct (Hi x Hx) as [E|E]; [left; exact E | right; apply Hincl; exact E].
      * destruct Hr as (Hfr' & Hns & Hh). rewrite Hfr. unfold frontier in Hfr'. simpl in Hfr'.
        rewrite Hfr'. repeat split; auto.
    + exists (Some (v, p)), (after_visit (root_node w) v gs ps (history w ++ [v])), [].
      simpl. rewrite Hst.
      pose proof (after_visit_spec (root_node w) v gs ps (history w ++ [v]) Hok) as HA.
      cbv zeta in HA. destruct HA as (Hinv' & Hro & Hh & Hfw & Hi & _).
      split; [reflexivity|]. split; [exact Hro|]. split; [exact Hinv'|].
      split; [constructor|].
      exists (pending gs ps). repeat split; auto.
      * apply mem_false. exact Hmem.
      * intros x Hx. destruct (Hi x Hx) as [E|E]; [left; exact E | right; apply Hincl; exact E].
Qed.

Lemma next_child_spec w :
  inv w ->
  exists r w' cs,
    next_child w = Some (r, w', cs) /\
    root_node w' = root_node w /\ inv w' /\
    Forall (fun c => In (fst c) (history w)) cs /\
    match r with
    | None => frontier w = cs /\ node_stack w' = [] /\ history w' = history w
    | Some (v, p) =>
        exists rest,
          frontier w = cs ++ (v, p) :: rest /\
          frontier w' = edges v ++ rest /\
          ~ In v (history w) /\ history w' = history w ++ [v] /\
          In p (parent_stack w) /\ incl (parent_stack w') (v :: parent_stack w)
    end.
Proof.
  intros Hinv. apply next_child_fuel_spec; [exact Hinv | lia].
Qed.

Lemma NoDup_snoc (h : list nat) v : NoDup h -> ~ In v h -> NoDup (h ++ [v]).
Proof.
  intros Hn Hv. apply Permutation_NoDup with (v :: h).
  - apply Permutation_cons_append.
  - constructor; assumption.
Qed.

Lemma exhaust_spec f w ys cs w' :
  inv w -> exhaust f w = Some (ys, cs, w') ->
  Permutation (ys ++ cs) (frontier w ++ flat_map edges (map fst ys)) /\
  history w' = history w ++ map fst ys /\
  node_stack w' = [] /\ root_node w' = root_node w /\
  Forall (fun c => In (fst c) (history w')) cs /\
  (NoDup (history w) -> NoDup (history w')).
Proof.
  revert w ys cs w'. induction f as [|f IH]; intros w ys cs w' Hinv Hex; [discriminate|].
  destruct (next_child_spec w Hinv) as (r & w1 & cs0 & Hnc & Hro & Hinv1 & Hcs0 & Hr).
  simpl in Hex. rewrite Hnc in Hex.
  destruct r as [[v p]|].
  - destruct (exhaust f w1) as [[[ys1 cs1] w2]|] eqn:E; [|discriminate].
    injection Hex as <- <- <-.
    destruct (IH w1 ys1 cs1 w2 Hinv1 E) as (Hperm & Hh & Hns & Hro2 & Hcs1 & Hnd).
    destruct Hr as (rest & Hfw & Hfw1 & Hnin & Hh1 & _ & _).
    rewrite Hh1 in Hh.
    split; [|split; [|split; [exact Hns|split; [congruence|split]]]].
    + apply (Permutation_count_occ pair_eq_dec). intros x.
      apply (Permutation_count_occ pair_eq_dec) with (x := x) in Hperm.
      rewrite Hfw1 in Hperm. rewrite Hfw. simpl.
      rewrite !count_occ_app in *. simpl.
      destruct (pair_eq_dec (v, p) x); lia.
    + rewrite Hh, <- app_assoc. reflexivity.
    + apply Forall_app. split; [|exact Hcs1].
      eapply Forall_impl; [|exact Hcs0]. intros c Hc. rewrite Hh.
      apply in_or_app. left. apply in_or_app. left. exact Hc.
    + intros Hn. apply Hnd. rewrite Hh1. apply NoDup_snoc; assumption.
  - injection Hex as <- <- <-.
    destruct Hr as (Hfw & Hns & Hh). simpl.
    rewrite app_nil_r, Hfw, Hh. repeat split; auto.
    rewrite app_nil_r. reflexivity.
Qed.

Lemma exhaust_parents f w ys cs w' (r : nat) :
  inv w -> exhaust f w = Some (ys, cs, w') ->
  (forall p, In p (parent_stack w) -> p = r \/ In p (history w)) ->
  forall ys1 y ys2, ys = ys1 ++ y :: ys2 ->
  snd y = r \/ In (snd y) (history w ++ map fst ys1).
Proof.
  revert w ys cs w'. induction f as [|f IH]; intros w ys cs w' Hinv Hex Hpar; [discriminate|].
  destruct (next_child_spec w Hinv) as (o & w1 & cs0 & Hnc & Hro & Hinv1 & Hcs0 & Hr).
  simpl in Hex. rewrite Hnc in Hex.
  destruct o as [[v p]|].
  - destruct (exhaust f w1) as [[[ys1 cs1] w2]|] eqn:E; [|discriminate].
    injection Hex as <- <- <-.
    destruct Hr as (rest & _ & _ & _ & Hh1 & Hp & Hi).
    intros ys1' y ys2 Hsplit.
    destruct ys1' as [|y0 ys1']; simpl in Hsplit; injection Hsplit as Hy Hys.
    + subst y. simpl. rewrite app_nil_r. apply Hpar. exact Hp.
    + subst y0.
      assert (Hpar1 : forall q, In q (parent_stack w1) -> q = r \/ In q (history w1)).
      { intros q Hq. rewrite Hh1. destruct (Hi q Hq) as [<-|Hq'].
        - right. apply in_or_app. right. left. reflexivity.
        - destruct (Hpar q Hq') as [E'|E']; [left; exact E'|right; apply in_or_app; left; exact E']. }
      destruct (IH w1 ys1 cs1 w2 Hinv1 E Hpar1 ys1' y ys2 Hys) as [E'|E']; [left; exact E'|right].
      rewrite Hh1, <- app_assoc in E'. exact E'.
  - injection Hex as <- <- <-. intros ys1 y ys2 Hsplit. destruct ys1; discriminate.
Qed.

Lemma exhaust_reach f w ys cs w' (r : nat) :
  inv w -> exhaust f w = Some (ys, cs, w') ->
  (forall x, In x (frontier w) -> reach r (fst x)) ->
  forall v, In v (map fst ys) -> reach r v.
Proof.
  revert w ys cs w'. induction f as [|f IH]; intros w ys cs w' Hinv Hex Hfr; [discriminate|].
  destruct (next_child_spec w Hinv) as (o & w1 & cs0 & Hnc & Hro & Hinv1 & Hcs0 & Hr).
  simpl in Hex. rewrite Hnc in Hex.
  destruct o as [[v p]|].
  - destruct (exhaust f w1) as [[[ys1 cs1] w2]|] eqn:E; [|discriminate].
    injection Hex as <- <- <-.
    destruct Hr as (rest & Hfw & Hfw1 & _ & _ & _ & _).
    assert (Hv : reach r v).
    { apply (Hfr (v, p)). rewrite Hfw. apply in_or_app. right. left. reflexivity. }
    intros u [Hu|Hu]; [subst u; exact Hv|].
    apply (IH w1 ys1 cs1 w2 Hinv1 E); [|exact Hu].
    intros x Hx. rewrite Hfw1 in Hx. apply in_app_or in Hx as [Hx|Hx].
    + unfold TreeWalker.edges in Hx. apply in_map_iff in Hx as (c & <- & Hc).
      simpl. apply reach_step with v; assumption.
    + apply Hfr. rewrite Hfw. apply in_or_app. right. right. exact Hx.
  - injection Hex as <- <- <-. intros v []. 
Qed.

Lemma mem_snoc a h v : mem a (h ++ [v]) = mem a h || Nat.eqb a v.
Proof. unfold mem. rewrite existsb_app. simpl. rewrite orb_false_r. reflexivity. Qed.

Lemma unvisited_le U h v :
  length (filter (fun u => negb (mem u (h ++ [v]))) U)
  <= length (filter (fun u => negb (mem u h)) U).
Proof.
  induction U as [|a U IHU]; simpl; [lia|]. rewrite mem_snoc.
  destruct (mem a h), (Nat.eqb a v); simpl; lia.
Qed.

Lemma unvisited_lt U h v :
  In v U -> ~ In v h ->
  length (filter (fun u => negb (mem u (h ++ [v]))) U)
  < length (filter (fun u => negb (mem u h)) U).
Proof.
  intros Hv Hn. induction U as [|a U IHU]; [destruct Hv|]. simpl. rewrite mem_snoc.
  destruct Hv as [<-|Hv].
  - apply mem_false in Hn. rewrite Hn, Nat.eqb_refl. simpl.
    pose proof (unvisited_le U h a). lia.
  - specialize (IHU Hv). destruct (mem a h), (Nat.eqb a v); simpl; lia.
Qed.

Lemma exhaust_terminates U (HU : closed U) n :
  forall w, inv w ->
  (forall x, In x (frontier w) -> In (fst x) U) ->
  unvisited U w < n ->
  exists ys cs w', exhaust n w = Some (ys, cs, w').
Proof.
  induction n as [|n IH]; intros w Hinv Hfr Hlt; [lia|].
  destruct (next_child_spec w Hinv) as (o & w1 & cs0 & Hnc & Hro & Hinv1 & Hcs0 & Hr).
  simpl. rewrite Hnc.
  destruct o as [[v p]|]; [|eexists _, _, _; reflexivity].
  destruct Hr as (rest & Hfw & Hfw1 & Hnin & Hh1 & _ & _).
  assert (HvU : In v U).
  { apply (Hfr (v, p)). rewrite Hfw. apply in_or_app. right. left. reflexivity. }
  destruct (IH w1 Hinv1) as (ys & cs & w' & E).
  - intros x Hx. rewrite Hfw1 in Hx. apply in_app_or in Hx as [Hx|Hx].
    + unfold TreeWalker.edges in Hx. apply in_map_iff in Hx as (c & <- & Hc).
      simpl. apply (HU v); assumption.
    + apply Hfr. rewrite Hfw. apply in_or_app. right. right. exact Hx.
  - unfold unvisited in *. rewrite Hh1. pose proof (unvisited_lt U (history w) v HvU Hnin). lia.
  - rewrite E. eexists _, _, _. reflexivity.
Qed.

Lemma init_spec r :
  let w := init (Some r) in
  inv w /\ frontier w = edges r /\ history w = [] /\ root_node w = Some r /\
  incl (parent_stack w) [r].
Proof.
  unfold TreeWalker.init, TreeWalker.reset, TreeWalker.edges, inv, stacks_ok. simpl.
  destruct (get_children r) as [|c cs]; simpl.
  - repeat split; auto. intros x [].
  - repeat split; auto.
    + constructor; [discriminate | constructor].
    + unfold frontier. simpl. rewrite app_nil_r. reflexivity.
    + apply incl_refl.
Qed.

Lemma map_fst_edges p : map fst (edges p) = get_children p.
Proof. unfold TreeWalker.edges. rewrite map_map. apply map_id. Qed.

Lemma map_fst_flat_map_edges l : map fst (flat_map edges l) = flat_map get_children l.
Proof.
  induction l as [|u l IHl]; simpl; [reflexivity|].
  rewrite map_app, map_fst_edges, IHl. reflexivity.
Qed.

Lemma count_edges l p a b :
  count_occ pair_eq_dec (map (fun c => (c, p)) l) (a, b)
  = if Nat.eq_dec p b then count_occ Nat.eq_dec l a else 0.
Proof.
  induction l as [|c l IHl]; simpl; [destruct (Nat.eq_dec p b); reflexivity|].
  rewrite IHl.
  destruct (pair_eq_dec (c, p) (a, b)) as [E|E];
    destruct (Nat.eq_dec p b); destruct (Nat.eq_dec c a); congruence.
Qed.

Lemma count_flat_map_edges l a b :
  count_occ pair_eq_dec (flat_map edges l) (a, b)
  = count_occ Nat.eq_dec l b * count_occ Nat.eq_dec (get_children b) a.
Proof.
  induction l as [|u l IHl]; simpl; [reflexivity|].
  rewrite count_occ_app, IHl. unfold TreeWalker.edges. rewrite count_edges.
  destruct (Nat.eq_dec u b); subst; lia.
Qed.

(** Everything the walker guarantees about one complete run from a root. *)
Lemma run_facts r f ys cs w :
  exhaust f (init (Some r)) = Some (ys, cs, w) ->
  Permutation (ys ++ cs) (edges r ++ flat_map edges (map fst ys)) /\
  NoDup (map fst ys) /\
  (forall v, In v (map fst ys) <-> reach r v) /\
  (forall x, In x (ys ++ cs) -> In (fst x) (map fst ys)) /\
  (forall ys1 y ys2, ys = ys1 ++ y :: ys2 -> snd y = r \/ In (snd y) (map fst ys1)) /\
  is_done w = true /\ root_node w = Some r.
Proof.
  intros Hex. destruct (init_spec r) as (Hinv & Hfr & Hh & Hro & Hps).
  destruct (exhaust_spec f _ ys cs w Hinv Hex) as (Hperm & Hhw & Hns & Hrow & Hcs & Hnd).
  rewrite Hfr in Hperm. rewrite Hh in Hhw, Hnd. simpl in Hhw.
  assert (Hin : forall x, In x (ys ++ cs) -> In (fst x) (map fst ys)).
  { intros x Hx. apply in_app_or in Hx as [Hx|Hx].
    - apply in_map. exact Hx.
    - rewrite Forall_forall in Hcs. rewrite <- Hhw. apply Hcs. exact Hx. }
  split; [exact Hperm|]. split; [rewrite <- Hhw; apply Hnd; constructor|].
  split; [|split; [exact Hin|split; [|split]]].
  - intros v. split.
    + apply (exhaust_reach f _ ys cs w r Hinv Hex).
      rewrite Hfr. intros x Hx. unfold TreeWalker.edges in Hx.
      apply in_map_iff in Hx as (c & <- & Hc). apply reach_child. exact Hc.
    + intros Hr. induction Hr as [c Hc|u c _ IHu Hc].
      * apply (Hin (c, r)). apply Permutation_in with (1 := Permutation_sym Hperm).
        apply in_or_app. left. unfold TreeWalker.edges. apply in_map_iff. exists c. auto.
      * apply (Hin (c, u)). apply Permutation_in with (1 := Permutation_sym Hperm).
        apply in_or_app. right. apply in_flat_map. exists u. split; [exact IHu|].
        unfold TreeWalker.edges. apply in_map_iff. exists c. auto.
  - intros ys1 y ys2 Hsplit.
    assert (Hpar : forall p, In p (parent_stack (init (Some r))) ->
                   p = r \/ In p (history (init (Some r)))).
    { intros p Hp. left. apply Hps in Hp. destruct Hp as [<-|[]]. reflexivity. }
    destruct (exhaust_parents f _ ys cs w r Hinv Hex Hpar ys1 y ys2 Hsplit) as [E|E];
      [left; exact E | right; rewrite Hh in E; exact E].
  - unfold TreeWalker.is_done. rewrite Hns. reflexivity.
  - rewrite Hrow. exact Hro.
Qed.

Lemma run_exists r U :
  In r U -> closed U ->
  exists ys cs w, exhaust (S (length U)) (init (Some r)) = Some (ys, cs, w).
Proof.
  intros Hr HU. destruct (init_spec r) as (Hinv & Hfr & Hh & _ & _).
  apply (exhaust_terminates U HU); [exact Hinv| |].
  - rewrite Hfr. intros x Hx. unfold TreeWalker.edges in Hx.
    apply in_map_iff in Hx as (c & <- & Hc). apply (HU r); assumption.
  - unfold unvisited. rewrite Hh. simpl.
    assert (forall l : list nat, length (filter (fun _ => true) l) = length l) as E.
    { induction l; simpl; congruence. }
    rewrite E. lia.
Qed.

Lemma init_inv (r : option nat) : inv (init r) /\ root_node (init r) = r.
Proof.
  destruct r as [r|].
  - destruct (init_spec r) as (Hinv & _ & _ & Hro & _). auto.
  - split; [split; [reflexivity | constructor] | reflexivity].
Qed.

Lemma reset_init (w : walker) : reset get_children w = init (root_node w).
Proof. destruct w. reflexivity. Qed.

End Invariants.

(** What a complete pass does on a finite graph (every node in a list
    [U] closed under edges): it returns each node reachable from the
    root exactly once and no other node, and [cycle_func] fires only for
    those nodes, for each reachable [v] exactly (k - 1) times, where k
    counts the edges into [v] from the root and from the returned nodes
    [L].  When the root is not on a cycle, [L] does not contain it and k
    is the number of edges by which [v] is reached.  When the root is on
    a cycle, the code returns the root and enumerates its children a
    second time (the root never enters the history), so [L] contains
    the root as well. *)
Theorem walk_yields_reachable_once (get_children : nat -> list nat) (r : nat) (U : list nat) :
  In r U -> closed get_children U ->
  exists ys cs w,
    exhaust get_children (S (length U)) (init get_children (Some r)) = Some (ys, cs, w) /\
    is_done w = true /\
    NoDup (map fst ys) /\
    (forall v, In v (map fst ys) <-> reach get_children r v) /\
    (forall v, ~ reach get_children r v -> count_occ Nat.eq_dec (map fst cs) v = 0) /\
    (forall L, NoDup L -> (forall v, In v L <-> reach get_children r v) ->
     forall v, reach get_children r v ->
     count_occ Nat.eq_dec (map fst cs) v = indegree get_children (r :: L) v - 1).
Proof.
  intros Hr HU. destruct (run_exists get_children r U Hr HU) as (ys & cs & w & Hex).
  destruct (run_facts get_children r _ ys cs w Hex)
    as (Hperm & Hnd & Hreach & Hin & _ & Hdone & _).
  exists ys, cs, w. split; [exact Hex|]. split; [exact Hdone|]. split; [exact Hnd|].
  split; [exact Hreach|].
  assert (Hcnt : forall v, count_occ Nat.eq_dec (map fst ys) v + count_occ Nat.eq_dec (map fst cs) v
                           = indegree get_children (r :: map fst ys) v).
  { intros v. rewrite <- count_occ_app, <- map_app.
    apply (Permutation_map fst) in Hperm.
    apply (Permutation_count_occ Nat.eq_dec) with (x := v) in Hperm. rewrite Hperm.
    unfold indegree. simpl. rewrite map_app, map_fst_edges, map_fst_flat_map_edges. reflexivity. }
  split.
  - intros v Hv. apply count_occ_not_In. intros Hc.
    apply in_map_iff in Hc as (x & <- & Hx). apply Hv, Hreach, (Hin x).
    apply in_or_app. right. exact Hx.
  - intros L HL HLr v Hv.
    assert (Hp : Permutation (map fst ys) L).
    { apply NoDup_Permutation; [exact Hnd | exact HL |]. intros x. rewrite Hreach, HLr. reflexivity. }
    assert (Hone : count_occ Nat.eq_dec (map fst ys) v = 1).
    { apply (NoDup_count_occ' Nat.eq_dec) with (x := v) in Hnd; [exact Hnd|]. apply Hreach. exact Hv. }
    assert (Heq : indegree get_children (r :: map fst ys) v = indegree get_children (r :: L) v).
    { unfold indegree. apply Permutation_count_occ.
      apply (Permutation_flat_map get_children). apply perm_skip. exact Hp. }
    rewrite <- Heq, <- Hcnt. lia.
Qed.

(** C2.  Every returned pair [(node, parent)] has as parent either the
    root or a node returned strictly earlier. *)
Theorem walk_parent_before_child (get_children : nat -> list nat) (r f : nat)
  (ys cs : list (nat * nat)) (w : walker) :
  exhaust get_children f (init get_children (Some r)) = Some (ys, cs, w) ->
  forall ys1 y ys2, ys = ys1 ++ y :: ys2 -> snd y = r \/ In (snd y) (map fst ys1).
Proof.
  intros Hex. destruct (run_facts get_children r f ys cs w Hex) as (_ & _ & _ & _ & Hpar & _).
  exact Hpar.
Qed.

(** Termination and self-loops on a finite graph: the walk reaches
    [(None, None)] within |U| + 1 calls of [next_child].  A node [A]
    other than the root, reachable from it and listing itself once among
    its children, is returned exactly once and [cycle_func(A, A)] fires
    exactly once.  For the root the count of [cycle_func(r, r)] depends
    on whether the code returned the root as its own child, because the
    root never enters the history. *)
Theorem walk_terminates_self_loop (get_children : nat -> list nat) (r : nat) (U : list nat) :
  In r U -> closed get_children U ->
  exists ys cs w,
    exhaust get_children (S (length U)) (init get_children (Some r)) = Some (ys, cs, w) /\
    is_done w = true /\
    forall A, (A = r \/ reach get_children r A) ->
      count_occ Nat.eq_dec (get_children A) A = 1 ->
      count_occ Nat.eq_dec (map fst ys) A = 1 /\
      (A <> r -> count_occ pair_eq_dec cs (A, A) = 1) /\
      (A = r -> count_occ pair_eq_dec cs (A, A) = 2 - count_occ pair_eq_dec ys (A, A)).
Proof.
  intros Hr HU. destruct (run_exists get_children r U Hr HU) as (ys & cs & w & Hex).
  destruct (run_facts get_children r _ ys cs w Hex)
    as (Hperm & Hnd & Hreach & _ & Hpar & Hdone & _).
  exists ys, cs, w. split; [exact Hex|]. split; [exact Hdone|].
  intros A HA Hloop.
  assert (HAr : reach get_children r A).
  { destruct HA as [<-|HA]; [|exact HA]. apply reach_child.
    apply (count_occ_In Nat.eq_dec). lia. }
  assert (Hone : count_occ Nat.eq_dec (map fst ys) A = 1).
  { apply (NoDup_count_occ' Nat.eq_dec) with (x := A) in Hnd; [exact Hnd|]. apply Hreach. exact HAr. }
  assert (Hsum : count_occ pair_eq_dec ys (A, A) + count_occ pair_eq_dec cs (A, A)
                 = (if Nat.eq_dec r A then 1 else 0) + 1).
  { rewrite <- count_occ_app.
    apply (Permutation_count_occ pair_eq_dec) with (x := (A, A)) in Hperm. rewrite Hperm.
    rewrite count_occ_app, count_flat_map_edges, Hone, Hloop. unfold TreeWalker.edges.
    rewrite count_edges. destruct (Nat.eq_dec r A) as [<-|]; [rewrite Hloop|]; lia. }
  split; [exact Hone|]. split.
  - intros Hne. destruct (Nat.eq_dec r A) as [E|_]; [congruence|].
    assert (Hy : count_occ pair_eq_dec ys (A, A) = 0).
    { apply count_occ_not_In. intros Hin. apply in_split in Hin as (ys1 & ys2 & Hsplit).
      destruct (Hpar ys1 (A, A) ys2 Hsplit) as [E|E]; simpl in E; [congruence|].
      rewrite Hsplit, map_app in Hnd. simpl in Hnd. apply NoDup_remove_2 in Hnd.
      apply Hnd. apply in_or_app. left. exact E. }
    lia.
  - intros ->. destruct (Nat.eq_dec r r) as [_|]; [lia | congruence].
Qed.

(** C1 (code bug).  The [next_child] docstring says the root itself is
    not returned, but [reset] never puts the root in the history.  With
    the root 0 on a cycle (0 -> 1, 0 -> 2, 2 -> 1, 2 -> 0) the code
    returns the root as [(0, 2)] and enumerates its children again.
    [cycle_func] then fires for node 2, which has a single incoming edge,
    and twice for node 1, which has two incoming edges, instead of
    (incoming edges - 1) times. *)
Theorem walk_root_on_cycle_bug :
  exhaust root_on_cycle 4 (init root_on_cycle (Some 0))
    = Some ([(1, 0); (2, 0); (0, 2)], [(1, 2); (1, 0); (2, 0)],
            mk_walker (Some 0) [] [] [1; 2; 0]) /\
  indegree root_on_cycle [0; 1; 2] 2 = 1 /\
  indegree root_on_cycle [0; 1; 2] 1 = 2 /\
  count_occ Nat.eq_dec (map fst [(1, 2); (1, 0); (2, 0)]) 2 = 1 /\
  count_occ Nat.eq_dec (map fst [(1, 2); (1, 0); (2, 0)]) 1 = 2.
Proof. repeat split; vm_compute; reflexivity. Qed.

(** C3 (code bug).  The root 0 lists itself once among its children
    (0 -> [1; 0], 1 -> [0]).  As the root never enters the history, the
    code returns it as [(0, 1)], against the [next_child] docstring, and
    enumerates its children a second time, so [cycle_func(0, 0)] fires
    twice instead of once.  The walk still ends after three calls. *)
Theorem walk_root_self_loop_bug :
  exhaust root_self_loop 3 (init root_self_loop (Some 0))
    = Some ([(1, 0); (0, 1)], [(1, 0); (0, 0); (0, 0)], mk_walker (Some 0) [] [] [1; 0]) /\
  count_occ Nat.eq_dec (root_self_loop 0) 0 = 1 /\
  count_occ pair_eq_dec [(1, 0); (0, 0); (0, 0)] (0, 0) = 2.
Proof. repeat split; vm_compute; reflexivity. Qed.

(** C9.  [reset] rebuilds exactly the state [__init__] builds from the
    stored root, so exhausting the walker again after a complete pass
    gives the same pairs, the same [cycle_func] calls and the same final
    state. *)
Theorem reset_restores_initial_state (get_children : nat -> list nat) (r : option nat) (f : nat)
  (ys cs : list (nat * nat)) (w : walker) :
  exhaust get_children f (init get_children r) = Some (ys, cs, w) ->
  reset get_children w = init get_children r /\
  exhaust get_children f (reset get_children w) = Some (ys, cs, w).
Proof.
  intros Hex. destruct (init_inv get_children r) as [Hinv Hro].
  destruct (exhaust_spec get_children f _ ys cs w Hinv Hex) as (_ & _ & _ & Hrow & _).
  rewrite reset_init, Hrow, Hro. split; [reflexivity | exact Hex].
Qed.

(** Witnesses: the theorems applied to concrete graphs. *)

Lemma walk_yields_reachable_once_witness :
  exists ys cs w,
    exhaust root_on_cycle 4 (init root_on_cycle (Some 0)) = Some (ys, cs, w) /\
    is_done w = true /\
    NoDup (map fst ys) /\
    (forall v, In v (map fst ys) <-> reach root_on_cycle 0 v) /\
    (forall v, ~ reach root_on_cycle 0 v -> count_occ Nat.eq_dec (map fst cs) v = 0) /\
    (forall L, NoDup L -> (forall v, In v L <-> reach root_on_cycle 0 v) ->
     forall v, reach root_on_cycle 0 v ->
     count_occ Nat.eq_dec (map fst cs) v = indegree root_on_cycle (0 :: L) v - 1).
Proof.
  apply (walk_yields_reachable_once root_on_cycle 0 [0; 1; 2]).
  - simpl. auto.
  - intros u c Hu Hc. simpl in Hu.
    destruct Hu as [<-|[<-|[<-|[]]]]; simpl in Hc |- *; intuition.
Defined.

Lemma walk_parent_before_child_witness :
  exhaust diamond 10 (init diamond (Some 0))
    = Some ([(1, 0); (3, 1); (2, 0)], [(3, 2)], mk_walker (Some 0) [] [] [1; 3; 2]) /\
  (snd (3, 1) = 0 \/ In (snd (3, 1)) (map fst [(1, 0)])).
Proof.
  split; [reflexivity|].
  apply (walk_parent_before_child diamond 0 10 [(1, 0); (3, 1); (2, 0)] [(3, 2)]
           (mk_walker (Some 0) [] [] [1; 3; 2]) eq_refl [(1, 0)] (3, 1) [(2, 0)]).
  reflexivity.
Defined.

Lemma walk_terminates_self_loop_witness :
  exists ys cs w,
    exhaust root_self_loop 3 (init root_self_loop (Some 0)) = Some (ys, cs, w) /\
    is_done w = true /\
    forall A, (A = 0 \/ reach root_self_loop 0 A) ->
      count_occ Nat.eq_dec (root_self_loop A) A = 1 ->
      count_occ Nat.eq_dec (map fst ys) A = 1 /\
      (A <> 0 -> count_occ pair_eq_dec cs (A, A) = 1) /\
      (A = 0 -> count_occ pair_eq_dec cs (A, A) = 2 - count_occ pair_eq_dec ys (A, A)).
Proof.
  apply (walk_terminates_self_loop root_self_loop 0 [0; 1]).
  - simpl. auto.
  - intros u c Hu Hc. simpl in Hu.
    destruct Hu as [<-|[<-|[]]]; simpl in Hc |- *; intuition.
Defined.

Lemma reset_restores_initial_state_witness :
  exhaust diamond 10 (init diamond (Some 0))
    = Some ([(1, 0); (3, 1); (2, 0)], [(3, 2)], mk_walker (Some 0) [] [] [1; 3; 2]) /\
  reset diamond (mk_walker (Some 0) [] [] [1; 3; 2]) = init diamond (Some 0) /\
  exhaust diamond 10 (reset diamond (mk_walker (Some 0) [] [] [1; 3; 2]))
    = Some ([(1, 0); (3, 1); (2, 0)], [(3, 2)], mk_walker (Some 0) [] [] [1; 3; 2]).
Proof.
  split; [reflexivity|].
  apply (reset_restores_initial_state diamond (Some 0) 10). reflexivity.
Defined.

End WalkerFacts.

(** ** Facts about generated_list *)

Module GeneratedListFacts.
Import GeneratedList.
Open Scope Z_scope.

Lemma index_loop_found v pre post : forall idx,
  0 <= idx -> ~ In v pre ->
  index_loop v 0 None idx (pre ++ v :: post) = (idx + Z.of_nat (length pre), S (length pre)).
Proof.
  induction pre as [|x pre IH]; intros idx Hidx Hnin; simpl.
  - replace (idx <? 0) with false by (symmetry; apply Z.ltb_ge; lia).
    rewrite Z.eqb_refl. f_equal. lia.
  - replace (idx <? 0) with false by (symmetry; apply Z.ltb_ge; lia).
    assert (Hx : (v =? x) = false).
    { apply Z.eqb_neq. intros ->. apply Hnin. left. reflexivity. }
    rewrite Hx, IH by (try lia; intros H; apply Hnin; right; exact H).
    f_equal. lia.
Qed.

Lemma index_loop_absent v xs : forall idx,
  0 <= idx -> ~ In v xs -> index_loop v 0 None idx xs = (-1, length xs).
Proof.
  induction xs as [|x xs IH]; intros idx Hidx Hnin; simpl; [reflexivity|].
  replace (idx <? 0) with false by (symmetry; apply Z.ltb_ge; lia).
  assert (Hx : (v =? x) = false).
  { apply Z.eqb_neq. intros ->. apply Hnin. left. reflexivity. }
  rewrite Hx, IH by (try lia; intros H; apply Hnin; right; exact H). reflexivity.
Qed.

Lemma py_in_deferred g xs v :
  gen_fn g = Some xs ->
  py_in g v = (let '(i, n) := index_loop v 0 None 0 xs in (Ok (0 <=? i), g, n)).
Proof.
  intros Hg. unfold py_in, contains, index. rewrite Hg. simpl.
  destruct (index_loop v 0 None 0 xs). reflexivity.
Qed.

(** C4 (amended).  On a deferred object, [len], [count] and [in] leave
    the object as it is; [in] draws the producer output only up to the
    first element equal to the value (all of it when there is none).
    An integer index read is not lazy: it materializes the object. *)
Theorem deferred_reads (g : gl) (xs : list Z) :
  gen_fn g = Some xs ->
  len g = (Ok (length xs), g, length xs) /\
  (forall v, count g v = (Ok (count_occ Z.eq_dec xs v), g, length xs)) /\
  (forall v pre post, xs = pre ++ v :: post -> ~ In v pre ->
     py_in g v = (Ok true, g, S (length pre))) /\
  (forall v, ~ In v xs -> py_in g v = (Ok false, g, length xs)) /\
  (storage g = [] -> forall i, 0 <= i < Z.of_nat (length xs) ->
     getitem g (Int i) = (Ok (Elem (nth (Z.to_nat i) xs 0)), mk_gl None xs (nonzero g), length xs)).
Proof.
  intros Hg. split; [unfold len; rewrite Hg; reflexivity|].
  split; [intros v; unfold count; rewrite Hg; reflexivity|].
  split; [|split].
  - intros v pre post Hxs Hnin. rewrite (py_in_deferred g xs v Hg), Hxs.
    rewrite index_loop_found by (lia || exact Hnin). simpl.
    replace (0 <=? Z.of_nat (length pre)) with true by (symmetry; apply Z.leb_le; lia).
    reflexivity.
  - intros v Hnin. rewrite (py_in_deferred g xs v Hg).
    rewrite index_loop_absent by (lia || exact Hnin). reflexivity.
  - intros Hs i Hi. unfold getitem, Expand. rewrite Hg, Hs. simpl.
    replace (- Z.of_nat (length xs) <=? i) with true by (symmetry; apply Z.leb_le; lia).
    replace (i <? Z.of_nat (length xs)) with true by (symmetry; apply Z.ltb_lt; lia).
    replace (i <? 0) with false by (symmetry; apply Z.ltb_ge; lia).
    reflexivity.
Qed.

Lemma deferred_reads_witness :
  len (new_gl [10; 20; 30]) = (Ok 3%nat, new_gl [10; 20; 30], 3%nat) /\
  (forall v, count (new_gl [10; 20; 30]) v
             = (Ok (count_occ Z.eq_dec [10; 20; 30] v), new_gl [10; 20; 30], 3%nat)) /\
  (forall v pre post, [10; 20; 30] = pre ++ v :: post -> ~ In v pre ->
     py_in (new_gl [10; 20; 30]) v = (Ok true, new_gl [10; 20; 30], S (length pre))) /\
  (forall v, ~ In v [10; 20; 30] -> py_in (new_gl [10; 20; 30]) v = (Ok false, new_gl [10; 20; 30], 3%nat)) /\
  (storage (new_gl [10; 20; 30]) = [] -> forall i, 0 <= i < 3 ->
     getitem (new_gl [10; 20; 30]) (Int i)
     = (Ok (Elem (nth (Z.to_nat i) [10; 20; 30] 0)), mk_gl None [10; 20; 30] None, 3%nat)).
Proof.
  apply (deferred_reads (new_gl [10; 20; 30]) [10; 20; 30]). reflexivity.
Defined.

(** C4 as stated fails: [seq[0]] on a deferred object with three
    elements materializes it and draws all three elements. *)
Lemma deferred_index_read_counterexample :
  ~ (forall xs i, 0 <= i < Z.of_nat (length xs) ->
       let '(_, g', n) := getitem (new_gl xs) (Int i) in
       gen_fn g' = Some xs /\ storage g' = [] /\ (n <= Z.to_nat i + 1)%nat).
Proof.
  intros H. specialize (H [10; 20; 30] 0). simpl in H.
  destruct H as [H _]; [lia | discriminate].
Qed.

(** C5 (code bug).  On the producer output [10; 20; 30] (N = 3):
    [seq[0:1:1]] returns two elements, not one (the lazy loop only stops
    at [idx > stop], so index [stop] is included); [seq[0:8:1]] returns
    the three elements instead of raising; and the two-bound form
    [seq[0:3]] ([__getslice__(0, 3)]) raises [IndexError] though
    [stop <= N]. *)
Theorem deferred_slice_bounds :
  getitem (new_gl [10; 20; 30]) (Slice (Some 0) (Some 1) (Some 1))
    = (Ok (Items [10; 20]), new_gl [10; 20; 30], 3%nat) /\
  getitem (new_gl [10; 20; 30]) (Slice (Some 0) (Some 8) (Some 1))
    = (Ok (Items [10; 20; 30]), new_gl [10; 20; 30], 3%nat) /\
  getslice (new_gl [10; 20; 30]) 0 3 = (Raise IndexError, new_gl [10; 20; 30], 3%nat) /\
  getslice (new_gl [10; 20; 30]) 0 1 = (Ok [10; 20], new_gl [10; 20; 30], 3%nat) /\
  getslice (new_gl [10; 20; 30]) 0 8 = (Raise IndexError, new_gl [10; 20; 30], 3%nat) /\
  getitem (new_gl [10; 20; 30]) (Int 3)
    = (Raise IndexError, mk_gl None [10; 20; 30] None, 3%nat).
Proof. repeat split; reflexivity. Qed.

(** C6 (code bug).  Once materialized, [__contains__] returns [None]
    (its [super] call has no [return]), so [in] is false even for a
    stored value, and [pop] always raises [AttributeError]
    ([generated_list.self] is not an attribute). *)
Theorem materialized_contains_pop (s : list Z) (nz : option bool) (v : Z) (pos : option Z) :
  py_in (mk_gl None s nz) v = (Ok false, mk_gl None s nz, 0%nat) /\
  pop (mk_gl None s nz) pos = (Raise AttributeError, mk_gl None s nz, 0%nat).
Proof. split; reflexivity. Qed.

Lemma cmp3_loop_lexicographic xs : forall ys,
  comparation_loop (fun z => negb (z =? 0)) cmp3 xs ys
  = match list_compare xs ys with Lt => -1 | Eq => 0 | Gt => 1 end.
Proof.
  induction xs as [|x xs IH]; intros [|y ys]; try reflexivity. simpl.
  unfold cmp3. destruct (Z.compare_spec x y) as [E|E|E].
  - subst y. rewrite Z.ltb_irrefl. simpl. apply IH.
  - apply Z.ltb_lt in E. rewrite E. reflexivity.
  - replace (x <? y) with false by (symmetry; apply Z.ltb_ge; lia).
    apply Z.ltb_lt in E. rewrite E. reflexivity.
Qed.

(** The [__cmp__] path of a deferred object is lexicographic. *)
Lemma deferred_cmp_lexicographic xs ys :
  cmp (new_gl xs) (Seq ys) = Ok (match list_compare xs ys with Lt => -1 | Eq => 0 | Gt => 1 end).
Proof. unfold cmp, sequence_comparation. simpl. rewrite cmp3_loop_lexicographic. reflexivity. Qed.

(** C7 (code bug).  [__lt__] of a deferred object skips a first pair
    with [x > y] and decides on a later pair: [2, 1] < [1, 5] is true,
    while lexicographically (and by [__cmp__]) [2, 1] is greater.  A
    non-iterable operand raises [NameError] instead of falling back. *)
Theorem deferred_lt_not_lexicographic :
  lt (new_gl [2; 1]) (Seq [1; 5]) = Ok true /\
  py_lt [2; 1] (Seq [1; 5]) = false /\
  cmp (new_gl [2; 1]) (Seq [1; 5]) = Ok 1 /\
  lt (new_gl [2; 1]) (Scalar 0) = Raise NameError /\
  eq (new_gl [2; 1]) (Scalar 0) = Raise NameError.
Proof. repeat split; reflexivity. Qed.

(** [Expand] is idempotent on any object. *)
Lemma expand_idempotent g : Expand (fst (Expand g)) = (fst (Expand g), 0%nat).
Proof. unfold Expand. destruct (gen_fn g) eqn:E; simpl; [reflexivity | rewrite E; reflexivity]. Qed.

(** C8.  Iterating a deferred object gives the producer output, the
    same as iterating it after [Expand]; on any object a second [Expand]
    changes nothing and draws nothing from the producer. *)
Theorem expand_preserves_iteration (xs : list Z) (nz : option bool) :
  fst (iter (mk_gl (Some xs) [] nz)) = xs /\
  fst (iter (fst (Expand (mk_gl (Some xs) [] nz)))) = xs /\
  (forall g, Expand (fst (Expand g)) = (fst (Expand g), 0%nat)).
Proof. split; [reflexivity|]. split; [reflexivity|]. exact expand_idempotent. Qed.

(** C10.  On a deferred object, [index] of an absent value with the
    default bounds returns [-1] (it does not raise) after drawing the
    whole output, and [in] is false. *)
Theorem deferred_index_absent (g : gl) (xs : list Z) (v : Z) :
  gen_fn g = Some xs -> ~ In v xs ->
  index g v None None = (Ok (-1), g, length xs) /\
  py_in g v = (Ok false, g, length xs).
Proof.
  intros Hg Hnin. split.
  - unfold index. rewrite Hg. simpl. rewrite index_loop_absent by (lia || exact Hnin). reflexivity.
  - rewrite (py_in_deferred g xs v Hg), index_loop_absent by (lia || exact Hnin). reflexivity.
Qed.

Lemma deferred_index_absent_witness :
  index (new_gl [10; 20; 30]) 40 None None = (Ok (-1), new_gl [10; 20; 30], 3%nat) /\
  py_in (new_gl [10; 20; 30]) 40 = (Ok false, new_gl [10; 20; 30], 3%nat).
Proof.
  apply (deferred_index_absent (new_gl [10; 20; 30]) [10; 20; 30] 40).
  - reflexivity.
  - simpl. intros [H|[H|[H|[]]]]; discriminate.
Defined.

End GeneratedListFacts.

(** ** Further properties of [TreeWalker] *)

Module WalkerExtras.
Import TreeWalker WalkerFacts.

Lemma init_history (gc : nat -> list nat) (r : option nat) : history (init gc r) = [].
Proof. unfold init, reset. destruct r as [r|]; simpl; [destruct (gc r)|]; reflexivity. Qed.

Lemma next_child_n_inv (gc : nat -> list nat) k : forall w,
  inv w -> exists w', next_child_n gc k w = Some w' /\ inv w' /\ root_node w' = root_node w.
Proof.
  induction k as [|k IH]; intros w Hinv; simpl; [eexists; auto|].
  destruct (next_child_spec gc w Hinv) as (o & w1 & cs & Hnc & Hro & Hinv1 & _).
  rewrite Hnc. destruct (IH w1 Hinv1) as (w' & E & Hinv' & Hro').
  exists w'. rewrite Hro' , Hro. auto.
Qed.

(** Any number of calls of [next_child] on a fresh walker, including
    calls after the walk is done, never raise: both stacks keep the same
    height and no sibling group on the stack is ever empty, so neither
    [parent_stack[-1]] nor [node_stack[-1].pop(0)] fails. *)
Theorem next_child_never_raises (gc : nat -> list nat) (r : option nat) (k : nat) :
  exists w, next_child_n gc k (init gc r) = Some w /\
    length (node_stack w) = length (parent_stack w) /\
    Forall (fun g => g <> []) (node_stack w) /\ root_node w = r.
Proof.
  destruct (init_inv gc r) as [Hinv Hro].
  destruct (next_child_n_inv gc k _ Hinv) as (w & E & [Hl Hne] & Hro').
  exists w. rewrite Hro' , Hro. auto.
Qed.

(** Once [is_done()] holds, [__nonzero__] is false and [next_child]
    returns [(None, None)] without calling [cycle_func] and without
    changing the walker. *)
Theorem done_walker_stays_done (gc : nat -> list nat) (w : walker) :
  is_done w = true ->
  walker_nonzero w = false /\ next_child gc w = Some (None, w, []).
Proof.
  unfold is_done, walker_nonzero, next_child, next_child_fuel.
  destruct (node_stack w) eqn:E; [|discriminate]. intros _. split; [reflexivity|].
  simpl. unfold step. rewrite E. reflexivity.
Qed.

Lemma done_walker_stays_done_witness :
  is_done (mk_walker (Some 0) [] [] [1; 3; 2]) = true /\
  walker_nonzero (mk_walker (Some 0) [] [] [1; 3; 2]) = false /\
  next_child diamond (mk_walker (Some 0) [] [] [1; 3; 2])
    = Some (None, mk_walker (Some 0) [] [] [1; 3; 2], []).
Proof.
  split; [reflexivity|]. apply done_walker_stays_done. reflexivity.
Defined.

(** A fresh walker is done at once exactly when its root is falsy or
    has no children; exactly then the first [next_child] returns
    [(None, None)]. *)
Theorem init_done_iff (gc : nat -> list nat) (r : option nat) :
  (is_done (init gc r) = true <-> (r = None \/ exists n, r = Some n /\ gc n = [])) /\
  (next_child gc (init gc r) = Some (None, init gc r, [])
     <-> (r = None \/ exists n, r = Some n /\ gc n = [])).
Proof.
  destruct r as [n|].
  - unfold init, reset. simpl. destruct (gc n) as [|c cs] eqn:E.
    + split; split; intros _; [right; exists n; auto | reflexivity
                              | right; exists n; auto | reflexivity].
    + split; split.
      * discriminate.
      * intros [H|(m & H & Hm)]; [discriminate|]. injection H as <-. congruence.
      * unfold next_child, next_child_fuel. simpl. unfold step. simpl.
        destruct cs; simpl; destruct (gc c); discriminate.
      * intros [H|(m & H & Hm)]; [discriminate|]. injection H as <-. congruence.
  - split; split; intros _; auto; reflexivity.
Qed.

(** After a complete pass from any root, the history lists exactly the
    returned nodes, in the order they were returned and without
    duplicates; every [cycle_func] call names one of those nodes; and
    the walker is done. *)
Theorem complete_pass_history (gc : nat -> list nat) (r : option nat) (f : nat)
  (ys cs : list (nat * nat)) (w : walker) :
  exhaust gc f (init gc r) = Some (ys, cs, w) ->
  history w = map fst ys /\ NoDup (history w) /\
  Forall (fun c => In (fst c) (map fst ys)) cs /\ is_done w = true.
Proof.
  intros Hex. destruct (init_inv gc r) as [Hinv _].
  destruct (exhaust_spec gc f _ ys cs w Hinv Hex) as (_ & Hh & Hns & _ & Hcs & Hnd).
  rewrite init_history in Hh, Hnd. simpl in Hh.
  split; [exact Hh|]. split; [apply Hnd; constructor|].
  split; [rewrite <- Hh; exact Hcs|]. unfold is_done. rewrite Hns. reflexivity.
Qed.

Lemma complete_pass_history_witness :
  exhaust diamond 10 (init diamond (Some 0))
    = Some ([(1, 0); (3, 1); (2, 0)], [(3, 2)], mk_walker (Some 0) [] [] [1; 3; 2]) /\
  (history (mk_walker (Some 0) [] [] [1; 3; 2]) = map fst [(1, 0); (3, 1); (2, 0)] /\
   NoDup (history (mk_walker (Some 0) [] [] [1; 3; 2])) /\
   Forall (fun c => In (fst c) (map fst [(1, 0); (3, 1); (2, 0)])) [(3, 2)] /\
   is_done (mk_walker (Some 0) [] [] [1; 3; 2]) = true).
Proof.
  split; [reflexivity|].
  apply (complete_pass_history diamond (Some 0) 10). reflexivity.
Defined.

(** Edge accounting of a complete pass: the returned pairs together
    with the [cycle_func] calls are, as a multiset, exactly the
    (child, parent) pairs of the root's children and of the children of
    every returned node.  So [get_children] is enumerated once per
    returned node, and each such pair is handled exactly once. *)
Theorem complete_pass_edges (gc : nat -> list nat) (r f : nat)
  (ys cs : list (nat * nat)) (w : walker) :
  exhaust gc f (init gc (Some r)) = Some (ys, cs, w) ->
  Permutation (ys ++ cs) (edges gc r ++ flat_map (edges gc) (map fst ys)).
Proof.
  intros Hex. destruct (run_facts gc r f ys cs w Hex) as (Hperm & _). exact Hperm.
Qed.

Lemma complete_pass_edges_witness :
  exhaust root_on_cycle 10 (init root_on_cycle (Some 0))
    = Some ([(1, 0); (2, 0); (0, 2)], [(1, 2); (1, 0); (2, 0)], mk_walker (Some 0) [] [] [1; 2; 0]) /\
  Permutation ([(1, 0); (2, 0); (0, 2)] ++ [(1, 2); (1, 0); (2, 0)])
    (edges root_on_cycle 0 ++ flat_map (edges root_on_cycle) (map fst [(1, 0); (2, 0); (0, 2)])).
Proof.
  split; [reflexivity|].
  apply (complete_pass_edges root_on_cycle 0 10 _ _ (mk_walker (Some 0) [] [] [1; 2; 0])).
  reflexivity.
Defined.

(** Depth-first progression: when [next_child] returns [v] and [v]'s
    first child [c] has not been returned yet (it is not in the
    history), the next call returns [(c, v)] and calls no [cycle_func]. *)
Theorem next_child_descends (gc : nat -> list nat) (w w1 : walker) (v p c : nat)
  (cs : list (nat * nat)) (rest : list nat) :
  inv w -> next_child gc w = Some (Some (v, p), w1, cs) ->
  gc v = c :: rest -> ~ In c (history w1) ->
  exists w2, next_child gc w1 = Some (Some (c, v), w2, []).
Proof.
  intros Hinv Hnc Hgc Hnin.
  destruct (next_child_spec gc w Hinv) as (o & w1' & cs' & Hnc' & _ & Hinv1 & _ & Hr).
  rewrite Hnc in Hnc'. injection Hnc' as <- <- <-.
  destruct Hr as (rest' & _ & Hfw1 & _).
  unfold TreeWalker.edges in Hfw1. rewrite Hgc in Hfw1. simpl in Hfw1.
  destruct (step_cases gc w1 Hinv1) as [[Hns _]|(v' & p' & gs & ps & Hfr & _ & _ & _ & _ & Hst)].
  - unfold frontier in Hfw1. rewrite Hns in Hfw1. discriminate.
  - rewrite Hfw1 in Hfr. injection Hfr as <- <- _.
    destruct Hst as [[Hm _]|[_ Hst]].
    + apply mem_In in Hm. contradiction.
    + eexists. unfold TreeWalker.next_child. simpl. rewrite Hst. reflexivity.
Qed.

Lemma next_child_descends_witness :
  next_child diamond (init diamond (Some 0))
    = Some (Some (1, 0), mk_walker (Some 0) [[3]; [2]] [1; 0] [1], []) /\
  exists w2, next_child diamond (mk_walker (Some 0) [[3]; [2]] [1; 0] [1])
             = Some (Some (3, 1), w2, []).
Proof.
  split; [reflexivity|].
  apply (next_child_descends diamond (init diamond (Some 0)) _ 1 0 3 [] []).
  - exact (proj1 (init_inv diamond (Some 0))).
  - reflexivity.
  - reflexivity.
  - simpl. intros [H|[]]. discriminate.
Defined.

End WalkerExtras.

(** ** Further properties of [generated_list] *)

Module GeneratedListExtras.
Import GeneratedList GeneratedListFacts.
Open Scope Z_scope.

(** *** [__nonzero__] *)

(** On a fresh deferred object, [__nonzero__] is true exactly when the
    producer yields something, draws at most one element, and caches the
    answer: a second call draws nothing and returns the same value, which
    is also what the materialized object answers. *)
Theorem nonzero_cached (xs : list Z) :
  let '(b, g1, n) := gl_nonzero (new_gl xs) in
  b = negb (Nat.eqb (length xs) 0) /\ n = Nat.min 1 (length xs) /\
  gl_nonzero g1 = (b, g1, 0%nat) /\ iter g1 = iter (new_gl xs) /\
  fst (fst (gl_nonzero (fst (Expand g1)))) = b.
Proof. destruct xs as [|x xs]; repeat split. Qed.

(** *** [index] with bounds *)

Lemma index_loop_skip v m mx : forall k xs idx,
  idx + Z.of_nat k = m ->
  index_loop v m mx idx xs
  = let '(r, n) := index_loop v m mx m (skipn k xs) in (r, (n + Nat.min k (length xs))%nat).
Proof.
  induction k as [|k IH]; intros xs idx Hk.
  - simpl. replace idx with m by lia. destruct (index_loop v m mx m xs). f_equal. lia.
  - destruct xs as [|x xs]; simpl; [reflexivity|].
    replace (idx <? m) with true by (symmetry; apply Z.ltb_lt; lia).
    rewrite (IH xs (idx + 1)) by lia.
    destruct (index_loop v m mx m (skipn k xs)). f_equal. lia.
Qed.

Lemma index_loop_found_from v m pre post : forall idx,
  m <= idx -> ~ In v pre ->
  index_loop v m None idx (pre ++ v :: post) = (idx + Z.of_nat (length pre), S (length pre)).
Proof.
  induction pre as [|x pre IH]; intros idx Hidx Hnin; simpl.
  - replace (idx <? m) with false by (symmetry; apply Z.ltb_ge; lia).
    rewrite Z.eqb_refl. f_equal. lia.
  - replace (idx <? m) with false by (symmetry; apply Z.ltb_ge; lia).
    assert (Hx : (v =? x) = false).
    { apply Z.eqb_neq. intros ->. apply Hnin. left. reflexivity. }
    rewrite Hx, IH by (try lia; intros H; apply Hnin; right; exact H).
    f_equal. lia.
Qed.

Lemma index_loop_max_absent v mx xs : forall idx,
  0 <= idx <= mx + 1 -> ~ In v (firstn (Z.to_nat (mx - idx + 1)) xs) ->
  index_loop v 0 (Some mx) idx xs = (-1, Nat.min (length xs) (Z.to_nat (mx - idx + 2))).
Proof.
  induction xs as [|x xs IH]; intros idx Hidx Hnin; simpl; [reflexivity|].
  replace (idx <? 0) with false by (symmetry; apply Z.ltb_ge; lia).
  destruct (mx <? idx) eqn:Hm.
  - apply Z.ltb_lt in Hm. replace (Z.to_nat (mx - idx + 2)) with 1%nat by lia. simpl. rewrite Nat.min_0_r. reflexivity.
  - apply Z.ltb_ge in Hm.
    replace (Z.to_nat (mx - idx + 2)) with (S (Z.to_nat (mx - (idx + 1) + 2))) by lia.
    replace (Z.to_nat (mx - idx + 1)) with (S (Z.to_nat (mx - idx))) in Hnin by lia.
    simpl in Hnin.
    assert (Hx : (v =? x) = false).
    { apply Z.eqb_neq. intros ->. apply Hnin. left. reflexivity. }
    rewrite Hx, IH.
    + reflexivity.
    + lia.
    + replace (Z.to_nat (mx - (idx + 1) + 1)) with (Z.to_nat (mx - idx)) by lia.
      intros H. apply Hnin. right. exact H.
Qed.

(** [index(val, min_index)] on a deferred object returns the first
    position at or after [min_index] that holds the value, drawing the
    producer output exactly up to that position. *)
Theorem deferred_index_min (xs s : list Z) (nz : option bool) (v m : Z) (pre post : list Z) :
  0 <= m -> xs = pre ++ v :: post -> (Z.to_nat m <= length pre)%nat ->
  ~ In v (skipn (Z.to_nat m) pre) ->
  index (mk_gl (Some xs) s nz) v (Some m) None
  = (Ok (Z.of_nat (length pre)), mk_gl (Some xs) s nz, S (length pre)).
Proof.
  intros Hm Hxs Hk Hnin. unfold index. simpl.
  replace (0 <=? m) with true by (symmetry; apply Z.leb_le; lia). simpl.
  rewrite (index_loop_skip v m None (Z.to_nat m) xs 0) by lia.
  rewrite Hxs, skipn_app.
  replace (Z.to_nat m - length pre)%nat with 0%nat by lia. simpl skipn at 2.
  rewrite index_loop_found_from by (lia || exact Hnin).
  rewrite length_app, length_skipn. simpl. f_equal; [f_equal; f_equal; lia | lia].
Qed.

Lemma deferred_index_min_witness :
  index (mk_gl (Some [7; 8; 7; 9]) [] None) 7 (Some 1) None
    = (Ok 2, mk_gl (Some [7; 8; 7; 9]) [] None, 3%nat).
Proof.
  apply (deferred_index_min [7; 8; 7; 9] [] None 7 1 [7; 8] [9]).
  - lia.
  - reflexivity.
  - simpl. lia.
  - simpl. intros [H|[]]. discriminate.
Defined.

(** [index(val, None, max_index)] on a deferred object stops at
    [max_index]: when the value is not among the positions
    [0 .. max_index] it returns [-1], drawing at most [max_index + 2]
    elements, even if the value occurs later. *)
Theorem deferred_index_max (xs s : list Z) (nz : option bool) (v mx : Z) :
  0 <= mx -> ~ In v (firstn (S (Z.to_nat mx)) xs) ->
  index (mk_gl (Some xs) s nz) v None (Some mx)
  = (Ok (-1), mk_gl (Some xs) s nz, Nat.min (length xs) (Z.to_nat (mx + 2))).
Proof.
  intros Hmx Hnin. unfold index. simpl.
  rewrite index_loop_max_absent.
  - do 3 f_equal. lia.
  - lia.
  - replace (Z.to_nat (mx - 0 + 1)) with (S (Z.to_nat mx)) by lia. exact Hnin.
Qed.

Lemma deferred_index_max_witness :
  index (mk_gl (Some [7; 8; 9; 5]) [] None) 9 None (Some 1)
    = (Ok (-1), mk_gl (Some [7; 8; 9; 5]) [] None, 3%nat).
Proof.
  apply (deferred_index_max [7; 8; 9; 5] [] None 9 1).
  - lia.
  - simpl. intros [H|[H|[]]]; discriminate.
Defined.

(** Bounds [index] does not search lazily (a negative [min_index], or a
    [max_index] below [min_index]) skip the producer and search the
    still-empty list of a fresh object: [ValueError], nothing drawn,
    whatever the producer yields. *)
Theorem deferred_index_bad_bounds (xs : list Z) (v m : Z) (mx : option Z) :
  m < 0 \/ (exists x, mx = Some x /\ x < m) ->
  index (new_gl xs) v (Some m) mx = (Raise ValueError, new_gl xs, 0%nat).
Proof.
  intros H. unfold index. simpl.
  destruct H as [H|(x & -> & Hx)].
  - replace (0 <=? m) with false by (symmetry; apply Z.leb_gt; lia). reflexivity.
  - replace (m <=? x) with false by (symmetry; apply Z.leb_gt; lia).
    rewrite andb_false_r. reflexivity.
Qed.

Lemma deferred_index_bad_bounds_witness :
  index (new_gl [7; 8]) 7 (Some (-1)) None = (Raise ValueError, new_gl [7; 8], 0%nat).
Proof. apply deferred_index_bad_bounds. left. lia. Defined.

(** *** Deferred and materialized reads *)

Lemma list_index_nonneg v xs i : list_index v xs = Ok i -> 0 <= i.
Proof.
  revert i. induction xs as [|x xs IH]; intros i H; simpl in H; [discriminate|].
  destruct (v =? x); [injection H as <-; lia|].
  destruct (list_index v xs) as [j|e]; [|discriminate].
  injection H as <-. specialize (IH j eq_refl). lia.
Qed.

Lemma list_index_raise v xs e : list_index v xs = Raise e -> e = ValueError.
Proof.
  induction xs as [|x xs IH]; simpl; intros H; [congruence|].
  destruct (v =? x); [discriminate|].
  destruct (list_index v xs); [discriminate | apply IH; congruence].
Qed.

Lemma index_loop_list_index v xs : forall idx,
  0 <= idx ->
  fst (index_loop v 0 None idx xs)
  = match list_index v xs with Ok i => idx + i | Raise _ => -1 end.
Proof.
  induction xs as [|x xs IH]; intros idx Hidx; simpl; [reflexivity|].
  replace (idx <? 0) with false by (symmetry; apply Z.ltb_ge; lia).
  destruct (v =? x); simpl; [lia|].
  specialize (IH (idx + 1) ltac:(lia)).
  destruct (index_loop v 0 None (idx + 1) xs). simpl in IH |- *. rewrite IH.
  destruct (list_index v xs); [lia | reflexivity].
Qed.

(** A fresh deferred object and the same object after [Expand] agree on
    [len], [count] and [index] of a present value; for an absent value
    the deferred [index] returns [-1] while the materialized one raises
    [ValueError]. *)
Theorem expand_read_agreement (xs : list Z) (nz : option bool) (v : Z) :
  let g := mk_gl (Some xs) [] nz in
  let g' := fst (Expand g) in
  fst (fst (len g')) = fst (fst (len g)) /\
  fst (fst (count g' v)) = fst (fst (count g v)) /\
  fst (fst (index g' v None None))
  = match fst (fst (index g v None None)) with
    | Ok i => if i =? -1 then Raise ValueError else Ok i
    | Raise e => Raise e
    end.
Proof.
  simpl. split; [reflexivity|]. split; [reflexivity|].
  pose proof (index_loop_list_index v xs 0 (Z.le_refl 0)) as H.
  unfold index. simpl.
  destruct (index_loop v 0 None 0 xs) as [r n]. simpl in H |- *. rewrite H.
  destruct (list_index v xs) as [i|e] eqn:E; [|apply list_index_raise in E; subst e; reflexivity].
  apply list_index_nonneg in E.
  replace (i =? -1) with false by (symmetry; apply Z.eqb_neq; lia). reflexivity.
Qed.

(** *** Lazy slices *)

Lemma getitem_loop_skip b e st : forall k xs idx,
  idx + Z.of_nat k = b ->
  getitem_loop b e st idx xs
  = let '(r, n) := getitem_loop b e st b (skipn k xs) in (r, (n + Nat.min k (length xs))%nat).
Proof.
  induction k as [|k IH]; intros xs idx Hk.
  - simpl. replace idx with b by lia. destruct (getitem_loop b e st b xs). f_equal. lia.
  - destruct xs as [|x xs]; simpl; [reflexivity|].
    replace (idx <? b) with true by (symmetry; apply Z.ltb_lt; lia).
    rewrite (IH xs (idx + 1)) by lia.
    destruct (getitem_loop b e st b (skipn k xs)). f_equal. lia.
Qed.

Lemma getitem_loop_collect b e xs : forall idx,
  b <= idx <= e + 1 ->
  getitem_loop b (Some e) 1 idx xs
  = (firstn (Z.to_nat (e - idx + 1)) xs, Nat.min (length xs) (Z.to_nat (e - idx + 2))).
Proof.
  induction xs as [|x xs IH]; intros idx Hidx; simpl; [destruct (Z.to_nat _); reflexivity|].
  replace (idx <? b) with false by (symmetry; apply Z.ltb_ge; lia).
  destruct (e <? idx) eqn:He.
  - apply Z.ltb_lt in He.
    replace (Z.to_nat (e - idx + 1)) with 0%nat by lia.
    replace (Z.to_nat (e - idx + 2)) with 1%nat by lia.
    simpl. rewrite Nat.min_0_r. reflexivity.
  - apply Z.ltb_ge in He. rewrite IH by lia. rewrite Z.mod_1_r. simpl.
    replace (Z.to_nat (e - idx + 1)) with (S (Z.to_nat (e - (idx + 1) + 1))) by lia.
    replace (Z.to_nat (e - idx + 2)) with (S (Z.to_nat (e - (idx + 1) + 2))) by lia.
    reflexivity.
Qed.

(** [__getitem__] with the slice object [slice(b, e)] (in Python 2
    [seq[b:e:]] or [seq[slice(b, e)]]; a plain [seq[b:e]] goes to
    [__getslice__]) on a deferred object with [0 <= b <= e] returns the
    elements at positions [b .. e] of the producer output ([e]
    included), without raising when the producer is shorter; it leaves
    the object deferred and draws at most [e + 2] elements. *)
Theorem deferred_slice_inclusive (xs s : list Z) (nz : option bool) (b e : Z) :
  0 <= b <= e ->
  getitem (mk_gl (Some xs) s nz) (Slice (Some b) (Some e) None)
  = (Ok (Items (firstn (Z.to_nat (e - b + 1)) (skipn (Z.to_nat b) xs))),
     mk_gl (Some xs) s nz, Nat.min (length xs) (Z.to_nat (e + 2))).
Proof.
  intros Hbe. unfold getitem. simpl.
  replace (0 <=? b) with true by (symmetry; apply Z.leb_le; lia).
  replace (b <=? e) with true by (symmetry; apply Z.leb_le; lia). simpl.
  rewrite (getitem_loop_skip b (Some e) 1 (Z.to_nat b) xs 0) by lia.
  rewrite getitem_loop_collect by lia.
  f_equal. rewrite length_skipn. lia.
Qed.

Lemma deferred_slice_inclusive_witness :
  getitem (new_gl [10; 20; 30; 40; 50]) (Slice (Some 1) (Some 2) None)
  = (Ok (Items [20; 30]), new_gl [10; 20; 30; 40; 50], 4%nat).
Proof. apply (deferred_slice_inclusive [10; 20; 30; 40; 50] [] None 1 2). lia. Defined.

(** On a deferred object a lazy slice never reverses: a negative step
    gives the same result as its magnitude, and a zero step is taken as
    1, while the same zero-step slice on the materialized object raises
    [ValueError]. *)
Theorem deferred_slice_step (xs s : list Z) (nz : option bool) (b e k : Z) :
  0 <= b <= e ->
  getitem (mk_gl (Some xs) s nz) (Slice (Some b) (Some e) (Some (- k)))
    = getitem (mk_gl (Some xs) s nz) (Slice (Some b) (Some e) (Some k)) /\
  getitem (mk_gl (Some xs) s nz) (Slice (Some b) (Some e) (Some 0))
    = getitem (mk_gl (Some xs) s nz) (Slice (Some b) (Some e) None) /\
  fst (fst (getitem (fst (Expand (mk_gl (Some xs) s nz))) (Slice (Some b) (Some e) (Some 0))))
    = Raise ValueError.
Proof.
  intros Hbe. unfold getitem. simpl.
  replace (0 <=? b) with true by (symmetry; apply Z.leb_le; lia).
  replace (b <=? e) with true by (symmetry; apply Z.leb_le; lia). simpl.
  split; [|split; reflexivity].
  destruct (Z.compare_spec k 0) as [->|Hk|Hk]; [reflexivity| |].
  - replace (- k =? 0) with false by (symmetry; apply Z.eqb_neq; lia).
    replace (- k <? 0) with false by (symmetry; apply Z.ltb_ge; lia).
    replace (k =? 0) with false by (symmetry; apply Z.eqb_neq; lia).
    replace (k <? 0) with true by (symmetry; apply Z.ltb_lt; lia). reflexivity.
  - replace (- k =? 0) with false by (symmetry; apply Z.eqb_neq; lia).
    replace (- k <? 0) with true by (symmetry; apply Z.ltb_lt; lia).
    replace (k =? 0) with false by (symmetry; apply Z.eqb_neq; lia).
    replace (k <? 0) with false by (symmetry; apply Z.ltb_ge; lia).
    rewrite Z.opp_involutive. reflexivity.
Qed.

Lemma deferred_slice_step_witness :
  getitem (new_gl [10; 20; 30]) (Slice (Some 0) (Some 2) (Some (- 2)))
    = getitem (new_gl [10; 20; 30]) (Slice (Some 0) (Some 2) (Some 2)) /\
  getitem (new_gl [10; 20; 30]) (Slice (Some 0) (Some 2) (Some 0))
    = getitem (new_gl [10; 20; 30]) (Slice (Some 0) (Some 2) None) /\
  fst (fst (getitem (fst (Expand (new_gl [10; 20; 30]))) (Slice (Some 0) (Some 2) (Some 0))))
    = Raise ValueError.
Proof. apply (deferred_slice_step [10; 20; 30] [] None 0 2 2). lia. Defined.

Lemma getslice_loop_short b e : forall xs idx,
  idx + Z.of_nat (length xs) <= b ->
  getslice_loop b e idx xs = ([], idx + Z.of_nat (length xs), length xs).
Proof.
  induction xs as [|x xs IH]; intros idx H; cbn [getslice_loop length] in *; [f_equal; f_equal; lia|].
  rewrite Nat2Z.inj_succ in *.
  replace (idx <? b) with true by (symmetry; apply Z.ltb_lt; lia).
  rewrite IH by lia. f_equal. f_equal. lia.
Qed.

Lemma getslice_loop_skip b e : forall k xs idx,
  idx + Z.of_nat k = b -> (k <= length xs)%nat ->
  getslice_loop b e idx xs
  = let '(r, i, n) := getslice_loop b e b (skipn k xs) in (r, i, (n + k)%nat).
Proof.
  induction k as [|k IH]; intros xs idx Hk Hlen.
  - simpl. replace idx with b by lia. destruct (getslice_loop b e b xs) as [[r i] n]. f_equal. lia.
  - destruct xs as [|x xs]; simpl in Hlen |- *; [lia|].
    replace (idx <? b) with true by (symmetry; apply Z.ltb_lt; lia).
    rewrite (IH xs (idx + 1)) by lia.
    destruct (getslice_loop b e b (skipn k xs)) as [[r i] n]. f_equal. lia.
Qed.

Lemma getslice_loop_collect b e xs : forall idx,
  b <= idx <= e + 1 ->
  getslice_loop b e idx xs
  = (firstn (Z.to_nat (e - idx + 1)) xs,
     idx + Z.of_nat (Nat.min (length xs) (Z.to_nat (e - idx + 1))),
     Nat.min (length xs) (Z.to_nat (e - idx + 2))).
Proof.
  induction xs as [|x xs IH]; intros idx Hidx; simpl.
  - destruct (Z.to_nat _); simpl; f_equal; f_equal; lia.
  - replace (idx <? b) with false by (symmetry; apply Z.ltb_ge; lia).
    destruct (e <? idx) eqn:He.
    + apply Z.ltb_lt in He.
      replace (Z.to_nat (e - idx + 1)) with 0%nat by lia.
      replace (Z.to_nat (e - idx + 2)) with 1%nat by lia.
      simpl. rewrite Nat.min_0_r. f_equal. f_equal. lia.
    + apply Z.ltb_ge in He. rewrite IH by lia.
      replace (Z.to_nat (e - idx + 1)) with (S (Z.to_nat (e - (idx + 1) + 1))) by lia.
      replace (Z.to_nat (e - idx + 2)) with (S (Z.to_nat (e - (idx + 1) + 2))) by lia.
      simpl. f_equal. f_equal. lia.
Qed.

(** The two-bound slice [seq[b:e]] ([__getslice__]) on a deferred object
    with [0 <= b <= e] raises [IndexError] exactly when the producer
    yields at most [e] elements, and otherwise returns the elements at
    positions [b .. e] ([e] included); it leaves the object deferred and
    draws at most [e + 2] elements. *)
Theorem deferred_getslice (xs s : list Z) (nz : option bool) (b e : Z) :
  0 <= b <= e ->
  getslice (mk_gl (Some xs) s nz) b e
  = (if Z.of_nat (length xs) <=? e then Raise IndexError
     else Ok (firstn (Z.to_nat (e - b + 1)) (skipn (Z.to_nat b) xs)),
     mk_gl (Some xs) s nz, Nat.min (length xs) (Z.to_nat (e + 2))).
Proof.
  intros Hbe. unfold getslice. cbn [gen_fn].
  replace (0 <=? b) with true by (symmetry; apply Z.leb_le; lia).
  replace (0 <=? e) with true by (symmetry; apply Z.leb_le; lia). cbn [andb].
  destruct (Nat.le_gt_cases (Z.to_nat b) (length xs)) as [Hk|Hk].
  - rewrite (getslice_loop_skip b e (Z.to_nat b) xs 0) by lia.
    rewrite getslice_loop_collect by lia. rewrite length_skipn.
    replace (b + Z.of_nat (Nat.min (length xs - Z.to_nat b) (Z.to_nat (e - b + 1))) <=? e)
      with (Z.of_nat (length xs) <=? e).
    + destruct (Z.of_nat (length xs) <=? e); f_equal; lia.
    + destruct (Z.of_nat (length xs) <=? e) eqn:E1; symmetry;
        [apply Z.leb_le in E1; apply Z.leb_le | apply Z.leb_gt in E1; apply Z.leb_gt]; lia.
  - rewrite getslice_loop_short by lia.
    replace (0 + Z.of_nat (length xs) <=? e) with true by (symmetry; apply Z.leb_le; lia).
    replace (Z.of_nat (length xs) <=? e) with true by (symmetry; apply Z.leb_le; lia).
    f_equal. lia.
Qed.

Lemma deferred_getslice_witness :
  getslice (new_gl [10; 20; 30; 40]) 1 2 = (Ok [20; 30], new_gl [10; 20; 30; 40], 4%nat).
Proof. apply (deferred_getslice [10; 20; 30; 40] [] None 1 2). lia. Defined.

(** *** Comparisons *)

Lemma list_compare_eq_iff xs : forall ys, list_compare xs ys = Eq <-> xs = ys.
Proof.
  induction xs as [|x xs IH]; intros [|y ys]; simpl; try (split; congruence).
  destruct (Z.compare_spec x y) as [<-|E|E].
  - rewrite IH. split; [intros ->|intros H; injection H]; auto.
  - split; [discriminate | intros H; injection H as -> _; lia].
  - split; [discriminate | intros H; injection H as -> _; lia].
Qed.

Lemma ne_loop_lexicographic xs : forall ys,
  comparation_loop (fun b => b) (fun l r => negb (l =? r)) xs ys
  = match list_compare xs ys with Eq => false | _ => true end.
Proof.
  induction xs as [|x xs IH]; intros [|y ys]; try reflexivity. simpl.
  destruct (Z.compare_spec x y) as [E|E|E].
  - subst y. rewrite Z.eqb_refl. simpl. apply IH.
  - replace (x =? y) with false by (symmetry; apply Z.eqb_neq; lia). reflexivity.
  - replace (x =? y) with false by (symmetry; apply Z.eqb_neq; lia). reflexivity.
Qed.

(** While deferred, [<=] and [>=] (through [__cmp__]) and [==] and [!=]
    agree with the lexicographic order of the producer output and the
    other sequence, and [==] holds exactly for equal element lists.  A
    non-iterable operand raises [NameError] in all four. *)
Theorem deferred_comparisons (xs s : list Z) (nz : option bool) (ys : list Z) (z : Z) :
  let g := mk_gl (Some xs) s nz in
  le g (Seq ys) = Ok (match list_compare xs ys with Gt => false | _ => true end) /\
  ge g (Seq ys) = Ok (match list_compare xs ys with Lt => false | _ => true end) /\
  eq g (Seq ys) = Ok (if list_eq_dec Z.eq_dec xs ys then true else false) /\
  ne g (Seq ys) = Ok (if list_eq_dec Z.eq_dec xs ys then false else true) /\
  le g (Scalar z) = Raise NameError /\ ge g (Scalar z) = Raise NameError /\
  eq g (Scalar z) = Raise NameError /\ ne g (Scalar z) = Raise NameError.
Proof.
  simpl. unfold le, ge, eq, ne, cmp, sequence_comparation. simpl.
  rewrite cmp3_loop_lexicographic, ne_loop_lexicographic.
  assert (Hc : match list_compare xs ys with Eq => true | _ => false end
               = if list_eq_dec Z.eq_dec xs ys then true else false).
  { destruct (list_eq_dec Z.eq_dec xs ys) as [E|E].
    - apply list_compare_eq_iff in E. rewrite E. reflexivity.
    - destruct (list_compare xs ys) eqn:C; [|reflexivity|reflexivity].
      apply list_compare_eq_iff in C. contradiction. }
  repeat split.
  - destruct (list_compare xs ys); reflexivity.
  - destruct (list_compare xs ys); reflexivity.
  - rewrite <- Hc. destruct (list_compare xs ys); reflexivity.
  - destruct (list_eq_dec Z.eq_dec xs ys), (list_compare xs ys); simpl in Hc |- *; congruence.
Qed.

(** *** Mutators *)

Lemma list_remove_found v pre post :
  ~ In v pre -> list_remove v (pre ++ v :: post) = Some (pre ++ post).
Proof.
  induction pre as [|x pre IH]; intros Hnin; simpl; [rewrite Z.eqb_refl; reflexivity|].
  replace (v =? x) with false by (symmetry; apply Z.eqb_neq; intros ->; apply Hnin; left; reflexivity).
  rewrite IH by (intros H; apply Hnin; right; exact H). reflexivity.
Qed.

Lemma list_remove_absent v xs : ~ In v xs -> list_remove v xs = None.
Proof.
  induction xs as [|x xs IH]; intros Hnin; simpl; [reflexivity|].
  replace (v =? x) with false by (symmetry; apply Z.eqb_neq; intros ->; apply Hnin; left; reflexivity).
  rewrite IH by (intros H; apply Hnin; right; exact H). reflexivity.
Qed.

(** [append], [extend], [insert] and [remove] first materialize the
    object (drawing the whole producer output once) and then act on that
    output as the built-in methods do: [insert] at [pos] puts the value
    at index [pos] clamped to [0 .. N], a negative [pos] counting from
    the end; [remove] drops the first occurrence, and for an absent
    value raises [ValueError] with the object already materialized. *)
Theorem mutators_materialize (xs : list Z) (nz : option bool) (v pos : Z) (ys : list Z) :
  let g := mk_gl (Some xs) [] nz in
  append g v = (Ok tt, mk_gl None (xs ++ [v]) nz, length xs) /\
  extend g ys = (Ok tt, mk_gl None (xs ++ ys) nz, length xs) /\
  (exists p, (p <= length xs)%nat /\
     insert g pos v = (Ok tt, mk_gl None (firstn p xs ++ v :: skipn p xs) nz, length xs) /\
     (0 <= pos -> p = Nat.min (Z.to_nat pos) (length xs)) /\
     (pos < 0 -> Z.of_nat p = Z.max 0 (Z.of_nat (length xs) + pos))) /\
  (forall pre post, xs = pre ++ v :: post -> ~ In v pre ->
     remove g v = (Ok tt, mk_gl None (pre ++ post) nz, length xs)) /\
  (~ In v xs -> remove g v = (Raise ValueError, mk_gl None xs nz, length xs)).
Proof.
  simpl. split; [reflexivity|]. split; [reflexivity|]. split; [|split].
  - unfold insert, list_insert. simpl.
    exists (Z.to_nat (if pos <? 0 then Z.max 0 (pos + Z.of_nat (length xs))
                      else Z.min pos (Z.of_nat (length xs)))).
    destruct (pos <? 0) eqn:Hp; [apply Z.ltb_lt in Hp | apply Z.ltb_ge in Hp].
    + split; [lia|]. split; [reflexivity|]. split; intros; lia.
    + split; [lia|]. split; [reflexivity|]. split; intros; lia.
  - intros pre post Hxs Hnin. unfold remove. simpl. rewrite Hxs, list_remove_found by exact Hnin.
    reflexivity.
  - intros Hnin. unfold remove. simpl. rewrite list_remove_absent by exact Hnin. reflexivity.
Qed.

End GeneratedListExtras.
